(** * A* path finding over a graph of cities (main.py)

    A shallow embedding of [City], [Node], [calc_heuristic] and [a_star].

    Modelling choices.
    - Python floats are idealised as exact rationals ([Q]); [math.sqrt] is
      a library function and is taken as a parameter [sqrt] of the model.
    - In exact arithmetic no operation fails; on floats [x ** 2] raises
      OverflowError when the square of a finite [x] is out of range.  The
      definitions with the suffix [_checked] are the same program with
      this exception, as a [Fault]: [a_star_checked] either faults in this
      way or returns what [a_star] returns, and the two agree when the
      squares that the search takes are in range.
    - A [City] object is designated by a reference ([CityRef]); [==] on
      cities is object identity (the class defines no [__eq__]), hence
      equality of references.  The object store of cities is the total
      function [city], as every Python reference designates a live object.
    - [Node] objects are mutable and shared: a node is reachable from the
      open or closed list and from the [parent] field of other nodes.  They
      live in a store ([heap]), the two lists hold references ([NodeRef])
      and [node.g = ...] writes to the store.  A node enters the store when
      it is first put in a list; [goal_node] and a [neighbour_node] that is
      dropped are only ever read through their local variable.
    - The two [while] loops are bounded: the main loop by a fuel argument,
      the walk along the parent links by the size of the store (a longer
      walk has met a node twice and never ends).  [Timeout] stands for a
      loop that does not finish, [Fault] for an exception ([IndexError]) or
      a reference outside the store. *)

From Stdlib Require Import QArith String.
From stdpp Require Import base list relations.

Open Scope Q_scope.

(** ** Outcomes of a computation *)

Inductive outcome (A : Type) : Type :=
| Done (a : A)
| Fault
| Timeout.
Arguments Done {A} a.
Arguments Fault {A}.
Arguments Timeout {A}.

Definition obind {A B} (m : outcome A) (k : A → outcome B) : outcome B :=
  match m with
  | Done a => k a
  | Fault => Fault
  | Timeout => Timeout
  end.

Notation "x ←! m ; k" := (obind m (λ x, k))
  (at level 20, m at level 100, k at level 200, only parsing, right associativity).
Notation "' p ←! m ; k" := (obind m (λ x, match x with p => k end))
  (at level 20, p pattern, m at level 100, k at level 200, only parsing,
   right associativity).

(** ** Data model *)

(** References to [City] and [Node] objects. *)
Abbreviation CityRef := nat.
Abbreviation NodeRef := nat.

(** class City *)
Record City : Type := mkCity {
  name : string;
  latitude : Q;
  longitude : Q;
  neighbours : list CityRef
}.

(** class Node *)
Record Node : Type := mkNode {
  node_city : CityRef;
  node_parent : option NodeRef;
  node_g : Q;
  node_h : Q;
  node_f : Q
}.

(** Node.__init__: the three costs start at 0. *)
Definition Node_init (parent : option NodeRef) (c : CityRef) : Node :=
  {| node_city := c; node_parent := parent; node_g := 0; node_h := 0; node_f := 0 |}.

(** The search state of [a_star]: the store of nodes and the two lists. *)
Record State : Type := mkState {
  heap : list Node;
  open_list : list NodeRef;
  closed_list : list NodeRef
}.

(** What one iteration of the main loop does: go on, or return a path. *)
Inductive step_result : Type :=
| Next (st : State)
| Return (path : list CityRef).

(** [hp[r]] for a node reference. *)
Definition read (hp : list Node) (r : NodeRef) : outcome Node :=
  match hp !! r with
  | Some n => Done n
  | None => Fault
  end.

(** [l[i]], an IndexError out of range. *)
Definition index {A} (l : list A) (i : nat) : outcome A :=
  match l !! i with
  | Some x => Done x
  | None => Fault
  end.

(** [l.pop(i)] for [i >= 0], an IndexError out of range. *)
Definition pop {A} (l : list A) (i : nat) : outcome (list A) :=
  match l !! i with
  | Some _ => Done (delete i l)
  | None => Fault
  end.

Section AStar.

(** [math.sqrt], and the store of city objects. *)
Context (sqrt : Q → Q) (city : CityRef → City).

(** City.distance_to *)
Definition distance_to (self other : CityRef) : Q :=
  sqrt ((latitude (city self) - latitude (city other)) ^ 2
        + (longitude (city self) - longitude (city other)) ^ 2).

(** calc_heuristic *)
Definition calc_heuristic (node goal_node : Node) : Q :=
  distance_to (node_city node) (node_city goal_node).

(** Lines 49-55: the scan for the node with the lowest f.  [i] is the
    index of the head of [ol] in the open list. *)
Fixpoint scan_best (hp : list Node) (ol : list NodeRef) (i : nat)
    (current_node : NodeRef) (current_index : nat) : outcome (NodeRef * nat) :=
  match ol with
  | [] => Done (current_node, current_index)
  | r :: rest =>
      node ←! read hp r;
      cur ←! read hp current_node;
      if Qlt_le_dec (node_f node) (node_f cur)
      then scan_best hp rest (S i) r i
      else scan_best hp rest (S i) current_node current_index
  end.

(** Lines 49-58: choose the best node, pop it from the open list and
    append it to the closed list. *)
Definition select (st : State) : outcome (NodeRef * State) :=
  first ←! index (open_list st) 0;
  '(current_node, current_index) ←! scan_best (heap st) (open_list st) 0 first 0;
  ol ←! pop (open_list st) current_index;
  Done (current_node,
        {| heap := heap st; open_list := ol;
           closed_list := closed_list st ++ [current_node] |}).

(** Lines 63-66: follow the parent links, collecting the cities. *)
Fixpoint walk (fuel : nat) (hp : list Node) (current_node : option NodeRef)
    (path : list CityRef) : outcome (list CityRef) :=
  match current_node with
  | None => Done path
  | Some r =>
      match fuel with
      | O => Timeout
      | S fuel' =>
          node ←! read hp r;
          walk fuel' hp (node_parent node) (path ++ [node_city node])
      end
  end.

(** Lines 72-76: is there a closed node for the city? *)
Fixpoint in_closed (hp : list Node) (cl : list NodeRef) (neighbour_city : CityRef)
    : outcome bool :=
  match cl with
  | [] => Done false
  | r :: rest =>
      node ←! read hp r;
      if decide (neighbour_city = node_city node) then Done true
      else in_closed hp rest neighbour_city
  end.

(** Lines 85-94: the loop over the open list, which lowers the g of an
    open node of the same city and gives it the current node as parent. *)
Fixpoint update_open (hp : list Node) (ol : list NodeRef) (neighbour_node : Node)
    (current_node : NodeRef) (in_open : bool) : outcome (list Node * bool) :=
  match ol with
  | [] => Done (hp, in_open)
  | r :: rest =>
      node ←! read hp r;
      if decide (node_city neighbour_node = node_city node) then
        if Qlt_le_dec (node_g neighbour_node) (node_g node) then
          update_open
            (<[r := {| node_city := node_city node;
                       node_parent := Some current_node;
                       node_g := node_g neighbour_node;
                       node_h := node_h node;
                       node_f := node_f node |}]> hp)
            rest neighbour_node current_node true
        else update_open hp rest neighbour_node current_node true
      else update_open hp rest neighbour_node current_node in_open
  end.

(** Lines 80-83: the node built for a neighbour of the current node. *)
Definition make_neighbour (goal_node cur : Node) (current_node : NodeRef)
    (neighbour_city : CityRef) : Node :=
  let n0 := Node_init (Some current_node) neighbour_city in
  let g := node_g cur + distance_to (node_city cur) neighbour_city in
  let h := calc_heuristic n0 goal_node in
  {| node_city := node_city n0; node_parent := node_parent n0;
     node_g := g; node_h := h; node_f := g + h |}.

(** Lines 71-97: the body of the loop over the neighbours. *)
Definition visit (goal_node : Node) (current_node : NodeRef)
    (neighbour_city : CityRef) (st : State) : outcome State :=
  closed ←! in_closed (heap st) (closed_list st) neighbour_city;
  if closed : bool then Done st
  else
    cur ←! read (heap st) current_node;
    let neighbour_node := make_neighbour goal_node cur current_node neighbour_city in
    '(hp, in_open) ←! update_open (heap st) (open_list st) neighbour_node
                        current_node false;
    if in_open : bool then
      Done {| heap := hp; open_list := open_list st; closed_list := closed_list st |}
    else
      Done {| heap := hp ++ [neighbour_node];
              open_list := open_list st ++ [length hp];
              closed_list := closed_list st |}.

(** Line 70: the loop over the neighbours of the current city. *)
Fixpoint expand (goal_node : Node) (current_node : NodeRef)
    (ns : list CityRef) (st : State) : outcome State :=
  match ns with
  | [] => Done st
  | neighbour_city :: rest =>
      st' ←! visit goal_node current_node neighbour_city st;
      expand goal_node current_node rest st'
  end.

(** Lines 49-97: one iteration of the main loop. *)
Definition body (goal_node : Node) (st : State) : outcome step_result :=
  '(current_node, st1) ←! select st;
  cur ←! read (heap st1) current_node;
  if decide (node_city cur = node_city goal_node) then
    path ←! walk (length (heap st1)) (heap st1) (Some current_node) [];
    Done (Return (reverse path))
  else
    st2 ←! expand goal_node current_node (neighbours (city (node_city cur))) st1;
    Done (Next st2).

(** Lines 48-98: the main loop. *)
Fixpoint a_star_loop (fuel : nat) (goal_node : Node) (st : State)
    : outcome (option (list CityRef)) :=
  match fuel with
  | O => Timeout
  | S fuel' =>
      match open_list st with
      | [] => Done None
      | _ :: _ =>
          r ←! body goal_node st;
          match r with
          | Return path => Done (Some path)
          | Next st' => a_star_loop fuel' goal_node st'
          end
      end
  end.

(** Lines 42-47: the state before the first iteration. *)
Definition init_state (start : CityRef) : State :=
  let start_node := Node_init None start in
  {| heap := [start_node]; open_list := [0%nat]; closed_list := [] |}.

(** a_star *)
Definition a_star (fuel : nat) (start goal : CityRef) : outcome (option (list CityRef)) :=
  let goal_node := Node_init None goal in
  a_star_loop fuel goal_node (init_state start).

(** The summed edge weight of a path, added up from the first edge on. *)
Fixpoint path_cost_from (acc : Q) (c : CityRef) (rest : list CityRef) : Q :=
  match rest with
  | [] => acc
  | d :: rest' => path_cost_from (acc + distance_to c d) d rest'
  end.

Definition path_cost (path : list CityRef) : Q :=
  match path with
  | [] => 0
  | c :: rest => path_cost_from 0 c rest
  end.

(** ** The search with the OverflowError of [** 2] *)

(** A float square is out of range when it rounds to more than the largest
    float: from 2^1024 - 2^970 on. *)
Definition overflow_bound : Q := inject_Z (2 ^ 1024 - 2 ^ 970).

(** [x ** 2] for a finite float [x]: OverflowError out of range. *)
Definition square (x : Q) : outcome Q :=
  if Qlt_le_dec (x ^ 2) overflow_bound then Done (x ^ 2) else Fault.

(** City.distance_to *)
Definition distance_to_checked (self other : CityRef) : outcome Q :=
  dlat ←! square (latitude (city self) - latitude (city other));
  dlon ←! square (longitude (city self) - longitude (city other));
  Done (sqrt (dlat + dlon)).

(** calc_heuristic *)
Definition calc_heuristic_checked (node goal_node : Node) : outcome Q :=
  distance_to_checked (node_city node) (node_city goal_node).

(** Lines 80-83. *)
Definition make_neighbour_checked (goal_node cur : Node) (current_node : NodeRef)
    (neighbour_city : CityRef) : outcome Node :=
  let n0 := Node_init (Some current_node) neighbour_city in
  d ←! distance_to_checked (node_city cur) neighbour_city;
  let g := node_g cur + d in
  h ←! calc_heuristic_checked n0 goal_node;
  Done {| node_city := node_city n0; node_parent := node_parent n0;
          node_g := g; node_h := h; node_f := g + h |}.

(** Lines 71-97. *)
Definition visit_checked (goal_node : Node) (current_node : NodeRef)
    (neighbour_city : CityRef) (st : State) : outcome State :=
  closed ←! in_closed (heap st) (closed_list st) neighbour_city;
  if closed : bool then Done st
  else
    cur ←! read (heap st) current_node;
    neighbour_node ←! make_neighbour_checked goal_node cur current_node
                        neighbour_city;
    '(hp, in_open) ←! update_open (heap st) (open_list st) neighbour_node
                        current_node false;
    if in_open : bool then
      Done {| heap := hp; open_list := open_list st; closed_list := closed_list st |}
    else
      Done {| heap := hp ++ [neighbour_node];
              open_list := open_list st ++ [length hp];
              closed_list := closed_list st |}.

(** Line 70. *)
Fixpoint expand_checked (goal_node : Node) (current_node : NodeRef)
    (ns : list CityRef) (st : State) : outcome State :=
  match ns with
  | [] => Done st
  | neighbour_city :: rest =>
      st' ←! visit_checked goal_node current_node neighbour_city st;
      expand_checked goal_node current_node rest st'
  end.

(** Lines 49-97. *)
Definition body_checked (goal_node : Node) (st : State) : outcome step_result :=
  '(current_node, st1) ←! select st;
  cur ←! read (heap st1) current_node;
  if decide (node_city cur = node_city goal_node) then
    path ←! walk (length (heap st1)) (heap st1) (Some current_node) [];
    Done (Return (reverse path))
  else
    st2 ←! expand_checked goal_node current_node
             (neighbours (city (node_city cur))) st1;
    Done (Next st2).

(** Lines 48-98. *)
Fixpoint a_star_loop_checked (fuel : nat) (goal_node : Node) (st : State)
    : outcome (option (list CityRef)) :=
  match fuel with
  | O => Timeout
  | S fuel' =>
      match open_list st with
      | [] => Done None
      | _ :: _ =>
          r ←! body_checked goal_node st;
          match r with
          | Return path => Done (Some path)
          | Next st' => a_star_loop_checked fuel' goal_node st'
          end
      end
  end.

(** a_star *)
Definition a_star_checked (fuel : nat) (start goal : CityRef)
    : outcome (option (list CityRef)) :=
  let goal_node := Node_init None goal in
  a_star_loop_checked fuel goal_node (init_state start).

(** ** Notions the properties are stated with *)

(** [d] is in the neighbours list of [c]. *)
Definition edge (c d : CityRef) : Prop := d ∈ neighbours (city c).

(** [c] can be reached from [start] by following neighbour links. *)
Definition reachable (start c : CityRef) : Prop := rtc edge start c.

(** Consecutive entries of a path are linked. *)
Definition linked (path : list CityRef) : Prop :=
  ∀ i u v, path !! i = Some u → path !! S i = Some v → edge u v.

(** [iterations goal_node k st st']: from [st], the main loop runs [k]
    full iterations, none of which selects the goal, and is then at the
    loop test in state [st']. *)
Inductive iterations (goal_node : Node) : nat → State → State → Prop :=
| iterations_O st : iterations goal_node 0 st st
| iterations_S k st st1 st' :
    open_list st ≠ [] →
    body goal_node st = Done (Next st1) →
    iterations goal_node k st1 st' →
    iterations goal_node (S k) st st'.

(** The states at the loop test during [a_star start goal]. *)
Definition loop_state (start goal : CityRef) (k : nat) (st : State) : Prop :=
  iterations (Node_init None goal) k (init_state start) st.

(** [expanding start goal r ns st]: during [a_star start goal] the loop
    over the neighbours of the current node [r] is in state [st], with the
    neighbours [ns] still to visit. *)
Inductive expanding (start goal : CityRef) : NodeRef → list CityRef → State → Prop :=
| expanding_first k st r st1 cur :
    loop_state start goal k st → open_list st ≠ [] →
    select st = Done (r, st1) →
    heap st1 !! r = Some cur → node_city cur ≠ goal →
    expanding start goal r (neighbours (city (node_city cur))) st1
| expanding_next r c rest st st' :
    expanding start goal r (c :: rest) st →
    visit (Node_init None goal) r c st = Done st' →
    expanding start goal r rest st'.

(** Node 0 is the start node; every other node of the store has a closed
    node as its parent, and its g is the g of the parent plus the distance
    from the parent's city to its own. *)
Definition hangs_on_closed (start : CityRef) (st : State) : Prop :=
  heap st !! 0%nat = Some (Node_init None start) ∧
  ∀ r n, heap st !! r = Some n → r ≠ 0%nat →
    ∃ p pn, node_parent n = Some p ∧ p ∈ closed_list st ∧
      heap st !! p = Some pn ∧
      node_g n = node_g pn + distance_to (node_city pn) (node_city n).

(** No reference is twice in the closed list, and a city with a closed
    node has no other node in the two lists. *)
Definition closed_apart (st : State) : Prop :=
  NoDup (closed_list st) ∧
  ∀ r n r' n',
    r ∈ closed_list st → heap st !! r = Some n →
    r' ∈ open_list st ++ closed_list st → heap st !! r' = Some n' →
    node_city n' = node_city n → r' = r.

(** The entry at position [i] of [ol] has the lowest f of [ol], and is the
    first such entry. *)
Definition first_min_f (hp : list Node) (ol : list NodeRef) (i : nat) : Prop :=
  ∃ (r : NodeRef) (n : Node), ol !! i = Some r ∧ hp !! r = Some n ∧
    ∀ (j : nat) (r' : NodeRef) (m : Node), ol !! j = Some r' → hp !! r' = Some m →
      node_f n <= node_f m ∧ ((j < i)%nat → node_f n < node_f m).

(** The node of an open entry after [neighbour_node] was compared to it
    (lines 87-94). *)
Definition relaxed (neighbour_node : Node) (current_node : NodeRef) (node : Node) : Node :=
  if decide (node_city neighbour_node = node_city node) then
    if Qlt_le_dec (node_g neighbour_node) (node_g node) then
      {| node_city := node_city node; node_parent := Some current_node;
         node_g := node_g neighbour_node; node_h := node_h node;
         node_f := node_f node |}
    else node
  else node.

(** All references of a list are in the store. *)
Definition in_store (hp : list Node) (l : list NodeRef) : Prop :=
  Forall (λ r, (r < length hp)%nat) l.

(** The state after [select] took entry [i] of the open list. *)
Definition selected (st : State) (i : nat) (r : NodeRef) : State :=
  {| heap := heap st; open_list := delete i (open_list st);
     closed_list := closed_list st ++ [r] |}.

(** The store after a step: it keeps its entries, which keep their city,
    h and f. *)
Definition store_grows (hp hp' : list Node) : Prop :=
  ∀ r n, hp !! r = Some n →
    ∃ n', hp' !! r = Some n' ∧ node_city n' = node_city n ∧
          node_h n' = node_h n ∧ node_f n' = node_f n.

(** [route start path c]: [path] leads from [start] to [c] along
    neighbour links. *)
Inductive route (start : CityRef) : list CityRef → CityRef → Prop :=
| route_start : route start [start] start
| route_snoc path c d :
    route start path c → edge c d → route start (path ++ [d]) d.

(** The shape of the search state: every node of the store is in exactly
    one of the two lists, no two nodes are for the same city, node 0 is
    the start node, and every other node hangs below a closed node. *)
Record search_inv (start : CityRef) (st : State) : Prop := {
  inv_perm : open_list st ++ closed_list st ≡ₚ seq 0 (length (heap st));
  inv_cities : NoDup (node_city <$> heap st);
  inv_start : heap st !! 0%nat = Some (Node_init None start);
  inv_first : 0%nat ∈ closed_list st ∨ (open_list st = [0%nat] ∧ closed_list st = []);
  inv_parent : ∀ r n, heap st !! r = Some n → r ≠ 0%nat →
    ∃ p pn i, node_parent n = Some p ∧ heap st !! p = Some pn ∧
      edge (node_city pn) (node_city n) ∧
      node_g n = node_g pn + distance_to (node_city pn) (node_city n) ∧
      closed_list st !! i = Some p ∧
      ∀ j, closed_list st !! j = Some r → (i < j)%nat;
  inv_reach : ∀ r n, heap st !! r = Some n → reachable start (node_city n)
}.

(** What a step from [st] to [st'] keeps: the shape of the state, the
    closed list, and the closed nodes. *)
Definition keeps (start : CityRef) (st st' : State) : Prop :=
  search_inv start st' ∧
  closed_list st' = closed_list st ∧
  store_grows (heap st) (heap st') ∧
  ∀ r, r ∈ closed_list st → heap st' !! r = heap st !! r.

(** [c] has a node in the store. *)
Definition has_node (st : State) (c : CityRef) : Prop :=
  ∃ r n, heap st !! r = Some n ∧ node_city n = c.

(** No closed node is for the goal, and every neighbour of the city of a
    closed node has a node in the store. *)
Definition explored (goal : CityRef) (st : State) : Prop :=
  ∀ r n, r ∈ closed_list st → heap st !! r = Some n →
    node_city n ≠ goal ∧ ∀ d, edge (node_city n) d → has_node st d.

(** Every node but the start node has as its h the distance from its city
    to the goal.  Its f is the sum of the g it was made with and of its h:
    the g of a closed node, its parent at that time, plus the distance from
    that node's city; and its g is not above that g. *)
Definition costs_ok (goal : CityRef) (st : State) : Prop :=
  ∀ r n, heap st !! r = Some n → r ≠ 0%nat →
    node_h n = distance_to (node_city n) goal ∧
    ∃ q qn, q ∈ closed_list st ∧ heap st !! q = Some qn ∧
      edge (node_city qn) (node_city n) ∧
      node_f n = (node_g qn + distance_to (node_city qn) (node_city n)) + node_h n ∧
      node_g n <= node_g qn + distance_to (node_city qn) (node_city n) ∧
      node_g n + node_h n <= node_f n.

(** The nodes of a store are in the later store, with a g that is not
    higher. *)
Definition g_lowers (hp hp' : list Node) : Prop :=
  ∀ r n, hp !! r = Some n →
    ∃ n', hp' !! r = Some n' ∧ node_g n' <= node_g n.

(** The two squares that [distance_to_checked a b] takes are in range. *)
Definition in_range (a b : CityRef) : Prop :=
  (latitude (city a) - latitude (city b)) ^ 2 < overflow_bound ∧
  (longitude (city a) - longitude (city b)) ^ 2 < overflow_bound.

(** Every square that a search from [start] to [goal] can take is in
    range: from a city within reach to each of its neighbours, and to the
    goal. *)
Definition range_ok (start goal : CityRef) : Prop :=
  ∀ a, reachable start a →
    in_range a goal ∧ ∀ b, edge a b → in_range a b.

(** [iterations] and [loop_state] for the search with the OverflowError. *)
Inductive iterations_checked (goal_node : Node) : nat → State → State → Prop :=
| iterations_checked_O st : iterations_checked goal_node 0 st st
| iterations_checked_S k st st1 st' :
    open_list st ≠ [] →
    body_checked goal_node st = Done (Next st1) →
    iterations_checked goal_node k st1 st' →
    iterations_checked goal_node (S k) st st'.

Definition loop_state_checked (start goal : CityRef) (k : nat) (st : State) : Prop :=
  iterations_checked (Node_init None goal) k (init_state start) st.

End AStar.

(** ** A concrete graph

    Cities S(0,0), A(8,0), B(1,0), N(2,0) and G(12,0) lie on a line, C is
    at (6,8), and E is an isolated city.  Roads: S-A, S-B, S-C, A-N, B-N,
    N-G and C-G.  Every distance that [a_star] computes on the way from S
    to G is a whole number. *)

(** An exact square root on squares of rationals. *)
Definition sqrt_exact (q : Q) : Q :=
  let r := Qred q in
  Qmake (Z.sqrt (Qnum r)) (Pos.sqrt (Qden r)).

Module Demo.

Definition S_ : CityRef := 0%nat.
Definition A_ : CityRef := 1%nat.
Definition B_ : CityRef := 2%nat.
Definition C_ : CityRef := 3%nat.
Definition N_ : CityRef := 4%nat.
Definition G_ : CityRef := 5%nat.
Definition E_ : CityRef := 6%nat.

Definition cities : list City :=
  [ mkCity "S" 0 0 [A_; B_; C_];
    mkCity "A" 8 0 [S_; N_];
    mkCity "B" 1 0 [S_; N_];
    mkCity "C" 6 8 [S_; G_];
    mkCity "N" 2 0 [A_; B_; G_];
    mkCity "G" 12 0 [N_; C_];
    mkCity "E" 20 20 [] ].

Definition city (c : CityRef) : City :=
  nth c cities (mkCity "" 0 0 []).

(** The pairs of cities of which [a_star S G] takes the distance: each
    road from the expanded cities S, A, B and C, and each city to G. *)
Definition measured : list (CityRef * CityRef) :=
  [ (S_, A_); (S_, B_); (S_, C_); (A_, N_); (B_, N_); (C_, G_);
    (A_, G_); (B_, G_); (N_, G_); (G_, G_) ].

(** The roads of the route S, B, N, G. *)
Definition short_route : list CityRef := [S_; B_; N_; G_].

(** The cities within reach of S. *)
Definition around_S : list CityRef := [S_; A_; B_; C_; N_; G_].

(** The state of [a_star S G] after two iterations (S and A are closed),
    and the same state with B selected, before B is expanded. *)
Definition st2 : State :=
  {| heap := [ mkNode S_ None 0 0 0;
               mkNode A_ (Some 0%nat) 8 4 12;
               mkNode B_ (Some 0%nat) 1 11 12;
               mkNode C_ (Some 0%nat) 10 10 20;
               mkNode N_ (Some 1%nat) 14 10 24 ];
     open_list := [2; 3; 4]%nat;
     closed_list := [0; 1]%nat |}.

Definition st2_selected : State :=
  {| heap := heap st2; open_list := [3; 4]%nat; closed_list := [0; 1; 2]%nat |}.

End Demo.

(** ** A graph with a square out of range

    A(2^700, 0) and B(0, 0) are joined by a road, E is an isolated city.
    The square of the difference of the latitudes of A and B is 2^1400. *)

Module Big.

Definition A_ : CityRef := 0%nat.
Definition B_ : CityRef := 1%nat.
Definition E_ : CityRef := 2%nat.

Definition cities : list City :=
  [ mkCity "A" (inject_Z (2 ^ 700)) 0 [B_];
    mkCity "B" 0 0 [A_];
    mkCity "E" 1 1 [] ].

Definition city (c : CityRef) : City :=
  nth c cities (mkCity "" 0 0 []).

End Big.

(** ** Building a graph, and [main] *)

(** City.__init__: a new city has no neighbours. *)
Definition City_init (name : string) (latitude longitude : Q) : City :=
  {| name := name; latitude := latitude; longitude := longitude;
     neighbours := [] |}.

(** [City(name, latitude, longitude)]: the new object is added to the
    store of cities; its reference is returned. *)
Definition new_city (store : list City) (name : string) (latitude longitude : Q)
    : list City * CityRef :=
  (store ++ [City_init name latitude longitude], length store).

(** City.add_neighbours: [self.neighbours = self.neighbours + cities]. *)
Definition add_neighbours (store : list City) (self : CityRef)
    (cities : list CityRef) : outcome (list City) :=
  c ←! index store self;
  Done (<[self := {| name := name c; latitude := latitude c;
                     longitude := longitude c;
                     neighbours := neighbours c ++ cities |}]> store).

(** The city that a reference designates in a store.  A reference outside
    the store, which no Python value is, reads as a city without
    neighbours. *)
Definition city_of (store : list City) (c : CityRef) : City :=
  default (City_init "" 0 0) (store !! c).

Module Main.

(** Lines 102-139 of main: the cities and the roads.  Returns the store
    with the references of Torino and Belluno. *)
Definition build_graph : outcome (list City * CityRef * CityRef) :=
  let store := [] in
  let '(store, aosta) := new_city store "Aosta" 45.735062 7.313080 in
  let '(store, torino) := new_city store "Torino" 45.070339 7.686864 in
  let '(store, bergamo) := new_city store "Bergamo" 45.698265 9.677270 in
  let '(store, milano) := new_city store "Milano" 45.4641943 9.1896346 in
  let '(store, alessandria) := new_city store "Alessandria" 44.8349533 8.7450304 in
  let '(store, cuneo) := new_city store "Cuneo" 44.4580703 7.5581367 in
  let '(store, genova) := new_city store "Genova" 44.40726 8.9338624 in
  let '(store, parma) := new_city store "Parma" 44.8013678 10.3280833 in
  let '(store, modena) := new_city store "Modena" 44.5384728 10.9359609 in
  let '(store, brescia) := new_city store "Brescia" 45.7795804 10.425873 in
  let '(store, trento) := new_city store "Trento" 46.1029536 11.1297425 in
  let '(store, verona) := new_city store "Verona" 45.4384958 10.9924122 in
  let '(store, padova) := new_city store "Padova" 45.4077172 11.8734455 in
  let '(store, bolzano) := new_city store "Bolzano" 46.4981125 11.3547801 in
  let '(store, ferrara) := new_city store "Ferrara" 44.7667642 11.827939 in
  let '(store, venezia) := new_city store "Venezia" 45.4371908 12.3345898 in
  let '(store, belluno) := new_city store "Belluno" 46.2805407 12.0789137 in
  let '(store, trieste) := new_city store "Trieste" 45.6496485 13.7772781 in
  store ←! add_neighbours store aosta [torino; alessandria; milano; bergamo];
  store ←! add_neighbours store torino [alessandria; genova; cuneo; aosta];
  store ←! add_neighbours store bergamo [milano; brescia; aosta; trento; bolzano];
  store ←! add_neighbours store milano [aosta; brescia; bergamo; alessandria; parma];
  store ←! add_neighbours store alessandria
             [aosta; torino; cuneo; genova; milano; brescia];
  store ←! add_neighbours store cuneo [torino; alessandria; genova];
  store ←! add_neighbours store genova [cuneo; torino; alessandria; parma; modena];
  store ←! add_neighbours store parma
             [modena; genova; alessandria; milano; brescia; verona];
  store ←! add_neighbours store modena [genova; parma; brescia; verona; ferrara];
  store ←! add_neighbours store brescia
             [milano; bergamo; verona; alessandria; parma; modena; trento];
  store ←! add_neighbours store trento
             [bolzano; belluno; padova; verona; brescia; bergamo];
  store ←! add_neighbours store verona
             [brescia; trento; belluno; padova; ferrara; modena; parma];
  store ←! add_neighbours store padova [venezia; ferrara; verona; trento; belluno];
  store ←! add_neighbours store bolzano [belluno; trento; bergamo];
  store ←! add_neighbours store ferrara [modena; verona; padova; venezia];
  store ←! add_neighbours store venezia [ferrara; padova; belluno];
  store ←! add_neighbours store belluno
             [trieste; venezia; padova; verona; trento; bolzano];
  store ←! add_neighbours store trieste [belluno];
  Done (store, torino, belluno).

(** main: the line that is printed. *)
Definition main (sqrt : Q → Q) (fuel : nat) : outcome string :=
  '(store, torino, belluno) ←! build_graph;
  path ←! a_star sqrt (city_of store) fuel torino belluno;
  match path with
  | None => Done "No roads found."%string
  | Some path =>
      let path := (λ city, name (city_of store city)) <$> path in
      Done (String.concat " -> " path)
  end.

(** The references of the eighteen cities. *)
Definition all_cities : list CityRef := seq 0 18.

(** The store that [build_graph] returns, evaluated. *)
Definition roads : list City :=
  Eval vm_compute in
    match build_graph with
    | Done (store, _, _) => store
    | _ => []
    end.

End Main.

Close Scope Q_scope.

(** ** Properties of the steps *)

(** Two lookups of one entry give the same value. *)
Ltac lookup_eq :=
  simplify_eq;
  repeat match goal with
  | H1 : ?l !! ?i = Some _, H2 : ?l !! ?i = Some _ |- _ =>
      rewrite H1 in H2; simplify_eq
  end.

Section Proofs.

Context (sqrt : Q → Q) (city : CityRef → City).

Local Abbreviation distance_to := (distance_to sqrt city).
Local Abbreviation make_neighbour := (make_neighbour sqrt city).
Local Abbreviation visit := (visit sqrt city).
Local Abbreviation expand := (expand sqrt city).
Local Abbreviation body := (body sqrt city).
Local Abbreviation a_star_loop := (a_star_loop sqrt city).
Local Abbreviation a_star := (a_star sqrt city).
Local Abbreviation path_cost := (path_cost sqrt city).
Local Abbreviation path_cost_from := (path_cost_from sqrt city).
Local Abbreviation edge := (edge city).
Local Abbreviation reachable := (reachable city).
Local Abbreviation linked := (linked city).
Local Abbreviation iterations := (iterations sqrt city).
Local Abbreviation loop_state := (loop_state sqrt city).
Local Abbreviation search_inv := (search_inv sqrt city).
Local Abbreviation keeps := (keeps sqrt city).
Local Abbreviation route := (route city).
Local Abbreviation expanding := (expanding sqrt city).
Local Abbreviation hangs_on_closed := (hangs_on_closed sqrt city).
Local Abbreviation explored := (explored city).
Local Abbreviation costs_ok := (costs_ok sqrt city).
Local Abbreviation distance_to_checked := (distance_to_checked sqrt city).
Local Abbreviation make_neighbour_checked := (make_neighbour_checked sqrt city).
Local Abbreviation visit_checked := (visit_checked sqrt city).
Local Abbreviation expand_checked := (expand_checked sqrt city).
Local Abbreviation body_checked := (body_checked sqrt city).
Local Abbreviation a_star_loop_checked := (a_star_loop_checked sqrt city).
Local Abbreviation a_star_checked := (a_star_checked sqrt city).
Local Abbreviation in_range := (in_range city).
Local Abbreviation range_ok := (range_ok city).
Local Abbreviation iterations_checked := (iterations_checked sqrt city).
Local Abbreviation loop_state_checked := (loop_state_checked sqrt city).

Lemma read_Done hp r n : hp !! r = Some n → read hp r = Done n.
Proof. unfold read. by intros ->. Qed.

Lemma in_store_lookup hp l r : in_store hp l → r ∈ l → ∃ n, hp !! r = Some n.
Proof.
  intros Hl Hr. unfold in_store in Hl. rewrite Forall_forall in Hl.
  apply lookup_lt_is_Some_2. auto.
Qed.

(** *** The scan for the lowest f *)

Lemma scan_best_spec hp ol :
  in_store hp ol →
  ∀ i cur ci ncur, hp !! cur = Some ncur →
  ∃ r' i' n',
    scan_best hp ol i cur ci = Done (r', i') ∧ hp !! r' = Some n' ∧
    (node_f n' <= node_f ncur)%Q ∧
    (∀ j r m, ol !! j = Some r → hp !! r = Some m → (node_f n' <= node_f m)%Q) ∧
    ((r' = cur ∧ i' = ci) ∨
     (∃ j, ol !! j = Some r' ∧ i' = i + j ∧ (node_f n' < node_f ncur)%Q ∧
        ∀ j' r m, j' < j → ol !! j' = Some r → hp !! r = Some m →
          (node_f n' < node_f m)%Q)).
Proof.
  induction ol as [|r rest IH]; intros Hst i cur ci ncur Hcur.
  - exists cur, ci, ncur. split_and!; auto.
    + apply Qle_refl.
    + intros j r m Hj. by rewrite lookup_nil in Hj.
  - apply Forall_cons in Hst as [Hr Hrest].
    apply lookup_lt_is_Some_2 in Hr as [node Hnode].
    simpl. rewrite (read_Done _ _ _ Hnode), (read_Done _ _ _ Hcur). simpl.
    destruct (Qlt_le_dec (node_f node) (node_f ncur)) as [Hlt|Hge].
    + destruct (IH Hrest (S i) r i node Hnode)
        as (r' & i' & n' & Hscan & Hn' & Hle & Hall & Hwhich).
      exists r', i', n'. split_and!; auto.
      * apply Qlt_le_weak. eapply Qle_lt_trans; eauto.
      * intros [|j] r0 m Hj Hm; simpl in Hj.
        -- lookup_eq. done.
        -- eauto.
      * right. destruct Hwhich as [[-> ->]|(j & Hj & -> & Hlt' & Hbefore)].
        -- exists 0. lookup_eq. split_and!; auto with lia; intros; lia.
        -- exists (S j). split_and!; auto with lia.
           ++ eapply Qlt_trans; eauto.
           ++ intros [|j'] r0 m Hlt0 Hj' Hm; simpl in Hj'.
              ** by lookup_eq.
              ** apply (Hbefore j' r0 m); [lia|done|done].
    + destruct (IH Hrest (S i) cur ci ncur Hcur)
        as (r' & i' & n' & Hscan & Hn' & Hle & Hall & Hwhich).
      exists r', i', n'. split_and!; auto.
      * intros [|j] r0 m Hj Hm; simpl in Hj.
        -- lookup_eq. eapply Qle_trans; eauto.
        -- eauto.
      * destruct Hwhich as [?|(j & Hj & -> & Hlt' & Hbefore)]; [by left|right].
        exists (S j). split_and!; auto with lia.
        intros [|j'] r0 m Hlt0 Hj' Hm; simpl in Hj'.
        -- lookup_eq. eapply Qlt_le_trans; eauto.
        -- apply (Hbefore j' r0 m); [lia|done|done].
Qed.

(** [select] succeeds on a non-empty open list, and takes the first entry
    of lowest f. *)
Lemma select_spec st :
  open_list st ≠ [] → in_store (heap st) (open_list st) →
  ∃ i r,
    select st = Done (r, {| heap := heap st; open_list := delete i (open_list st);
                            closed_list := closed_list st ++ [r] |}) ∧
    open_list st !! i = Some r ∧
    first_min_f (heap st) (open_list st) i.
Proof.
  intros Hne Hst. unfold select.
  destruct (open_list st) as [|r0 rest] eqn:Hol; [done|].
  pose proof Hst as Hst'. apply Forall_cons in Hst' as [Hr0 _].
  apply lookup_lt_is_Some_2 in Hr0 as [n0 Hn0].
  destruct (scan_best_spec _ _ Hst 0 r0 0 n0 Hn0)
    as (r' & i' & n' & Hscan & Hn' & Hle & Hall & Hwhich).
  unfold index. change ((r0 :: rest) !! 0) with (Some r0).
  cbn [obind]. rewrite Hscan. cbn [obind].
  assert ((r0 :: rest) !! i' = Some r' ∧
          ∀ j r m, j < i' → (r0 :: rest) !! j = Some r → heap st !! r = Some m →
            (node_f n' < node_f m)%Q) as [Hi' Hbefore].
  { destruct Hwhich as [[-> ->]|(j & Hj & -> & _ & Hb)].
    - split; [done|]. intros; lia.
    - split; [done|]. apply Hb. }
  exists i', r'. unfold pop. rewrite Hi'. split_and!; auto.
  exists r', n'. split_and!; auto.
  intros j r m Hj Hm. split; eauto.
Qed.

(** *** The test on the closed list *)

Lemma in_closed_spec hp cl c :
  in_store hp cl →
  ∃ b, in_closed hp cl c = Done b ∧
    (b = true ↔ ∃ r n, r ∈ cl ∧ hp !! r = Some n ∧ node_city n = c).
Proof.
  induction cl as [|r rest IH]; intros Hst.
  - exists false. split; [done|]. split; [done|].
    intros (r & n & Hr & _). by apply elem_of_nil in Hr.
  - apply Forall_cons in Hst as [Hr Hrest].
    apply lookup_lt_is_Some_2 in Hr as [node Hnode].
    simpl. rewrite (read_Done _ _ _ Hnode). cbn [obind].
    destruct (decide (c = node_city node)) as [->|Hne].
    + exists true. split; [done|]. split; [|done].
      intros _. exists r, node. split_and!; auto. apply elem_of_cons; auto.
    + destruct (IH Hrest) as (b & -> & Hb). exists b. split; [done|].
      rewrite Hb. split.
      * intros (r' & n & Hr' & Hn & Hc). exists r', n.
        split_and!; auto. apply elem_of_cons; auto.
      * intros (r' & n & Hr' & Hn & Hc).
        apply elem_of_cons in Hr' as [->|Hr'].
        -- by lookup_eq.
        -- exists r', n. auto.
Qed.

(** *** The loop over the open list *)

Lemma relaxed_city nb cur n : node_city (relaxed nb cur n) = node_city n.
Proof. unfold relaxed. repeat case_match; done. Qed.

Lemma relaxed_h_f nb cur n :
  node_h (relaxed nb cur n) = node_h n ∧ node_f (relaxed nb cur n) = node_f n.
Proof. unfold relaxed. repeat case_match; done. Qed.

Lemma relaxed_other nb cur n :
  node_city nb ≠ node_city n → relaxed nb cur n = n.
Proof. unfold relaxed. intros. by rewrite decide_False. Qed.

Lemma relaxed_idemp nb cur n :
  relaxed nb cur (relaxed nb cur n) = relaxed nb cur n.
Proof.
  unfold relaxed.
  destruct (decide (node_city nb = node_city n)) as [Hc|Hc]; simpl.
  - destruct (Qlt_le_dec (node_g nb) (node_g n)) as [Hg|Hg]; simpl.
    + rewrite decide_True by done.
      destruct (Qlt_le_dec (node_g nb) (node_g nb)) as [Hg'|Hg']; [|done].
      by apply Qlt_irrefl in Hg'.
    + rewrite decide_True by done.
      destruct (Qlt_le_dec (node_g nb) (node_g n)) as [Hg'|Hg']; [|done].
      exfalso. eapply Qlt_irrefl, Qlt_le_trans; eauto.
  - by rewrite decide_False.
Qed.

Lemma update_open_cons hp r rest nb cur b node :
  hp !! r = Some node →
  update_open hp (r :: rest) nb cur b =
  update_open (<[r := relaxed nb cur node]> hp) rest nb cur
    (b || bool_decide (node_city nb = node_city node)).
Proof.
  intros Hnode. simpl. rewrite (read_Done _ _ _ Hnode). cbn [obind].
  unfold relaxed.
  destruct (decide (node_city nb = node_city node)) as [Hc|Hc].
  - rewrite bool_decide_eq_true_2, orb_true_r by done.
    destruct (Qlt_le_dec (node_g nb) (node_g node)); [done|].
    by rewrite list_insert_id.
  - rewrite bool_decide_eq_false_2, orb_false_r by done.
    by rewrite list_insert_id.
Qed.

Lemma update_open_spec nb cur ol :
  ∀ hp b, in_store hp ol →
  ∃ hp' b',
    update_open hp ol nb cur b = Done (hp', b') ∧
    length hp' = length hp ∧
    (b' = true ↔
       b = true ∨ ∃ r n, r ∈ ol ∧ hp !! r = Some n ∧ node_city n = node_city nb) ∧
    ∀ r n, hp !! r = Some n →
      hp' !! r = Some (if decide (r ∈ ol) then relaxed nb cur n else n).
Proof.
  induction ol as [|r0 rest IH]; intros hp b Hst.
  - exists hp, b. split_and!; auto.
    split; [auto|]. intros [?|(r & n & Hr & _)]; [done|].
    by apply elem_of_nil in Hr.
  - apply Forall_cons in Hst as [Hr0 Hrest].
    pose proof Hr0 as Hlt.
    apply lookup_lt_is_Some_2 in Hr0 as [node Hnode].
    rewrite (update_open_cons _ _ _ _ _ _ _ Hnode).
    set (hp1 := <[r0 := relaxed nb cur node]> hp).
    assert (length hp1 = length hp) as Hlen by apply length_insert.
    assert (in_store hp1 rest) as Hrest1.
    { unfold in_store. by rewrite Hlen. }
    destruct (IH hp1 (b || bool_decide (node_city nb = node_city node)) Hrest1)
      as (hp' & b' & -> & Hlen' & Hb' & Hpt).
    exists hp', b'. split_and!; auto.
    + congruence.
    + rewrite Hb', orb_true_iff, bool_decide_eq_true. split.
      * intros [[?|Hc]|(r & n & Hr & Hn & Hc)].
        -- by left.
        -- right. exists r0, node. split_and!; auto. apply elem_of_cons; auto.
        -- right. destruct (decide (r = r0)) as [->|Hne].
           ++ exists r0, node. split_and!; auto; [apply elem_of_cons; auto|].
              unfold hp1 in Hn. rewrite list_lookup_insert_eq in Hn by done.
              simplify_eq. by rewrite relaxed_city in Hc.
           ++ exists r, n. split_and!; auto; [apply elem_of_cons; auto|].
              unfold hp1 in Hn. by rewrite list_lookup_insert_ne in Hn.
      * intros [?|(r & n & Hr & Hn & Hc)]; [by left; left|].
        apply elem_of_cons in Hr as [->|Hr].
        -- lookup_eq. by left; right.
        -- right. destruct (decide (r = r0)) as [->|Hne].
           ++ lookup_eq. exists r0, (relaxed nb cur node). split_and!; auto.
              ** unfold hp1. by rewrite list_lookup_insert_eq.
              ** by rewrite relaxed_city.
           ++ exists r, n. split_and!; auto.
              unfold hp1. by rewrite list_lookup_insert_ne.
    + intros r n Hn. destruct (decide (r = r0)) as [->|Hne].
      * lookup_eq. rewrite (Hpt r0 (relaxed nb cur node)).
        2:{ unfold hp1. by rewrite list_lookup_insert_eq. }
        rewrite (decide_True (P := r0 ∈ r0 :: rest)) by (apply elem_of_cons; auto).
        destruct (decide (r0 ∈ rest)); [by rewrite relaxed_idemp|done].
      * rewrite (Hpt r n).
        2:{ unfold hp1. by rewrite list_lookup_insert_ne. }
        f_equal. apply decide_ext. rewrite elem_of_cons.
        split; [by right | by intros [?|?]].
Qed.

(** *** Consequences of the shape of the search state *)

Lemma inv_refs start st r :
  search_inv start st →
  (r ∈ open_list st ∨ r ∈ closed_list st) ↔ r < length (heap st).
Proof.
  intros Hinv. rewrite <- elem_of_app, (inv_perm _ _ _ _ Hinv), elem_of_seq. lia.
Qed.

Lemma inv_open_store start st :
  search_inv start st → in_store (heap st) (open_list st).
Proof.
  intros Hinv. apply Forall_forall. intros r Hr.
  apply (inv_refs start st r Hinv). auto.
Qed.

Lemma inv_closed_store start st :
  search_inv start st → in_store (heap st) (closed_list st).
Proof.
  intros Hinv. apply Forall_forall. intros r Hr.
  apply (inv_refs start st r Hinv). auto.
Qed.

Lemma inv_disjoint start st r :
  search_inv start st → r ∈ open_list st → r ∈ closed_list st → False.
Proof.
  intros Hinv Ho Hc.
  assert (NoDup (open_list st ++ closed_list st)) as Hnd.
  { rewrite (inv_perm _ _ _ _ Hinv). apply NoDup_seq. }
  apply NoDup_app in Hnd as (_ & Hnd & _). by apply (Hnd r).
Qed.

Lemma inv_closed_NoDup start st :
  search_inv start st → NoDup (closed_list st).
Proof.
  intros Hinv.
  assert (NoDup (open_list st ++ closed_list st)) as Hnd.
  { rewrite (inv_perm _ _ _ _ Hinv). apply NoDup_seq. }
  by apply NoDup_app in Hnd as (_ & _ & Hnd).
Qed.

Lemma inv_city_inj start st r1 r2 n1 n2 :
  search_inv start st →
  heap st !! r1 = Some n1 → heap st !! r2 = Some n2 →
  node_city n1 = node_city n2 → r1 = r2.
Proof.
  intros Hinv H1 H2 Hc.
  apply (NoDup_lookup _ r1 r2 (node_city n1) (inv_cities _ _ _ _ Hinv)).
  - by rewrite list_lookup_fmap, H1.
  - by rewrite list_lookup_fmap, H2, Hc.
Qed.

Lemma inv_lengths start st :
  search_inv start st →
  length (open_list st) + length (closed_list st) = length (heap st).
Proof.
  intros Hinv. rewrite <- length_app, (inv_perm _ _ _ _ Hinv). apply length_seq.
Qed.

Lemma store_grows_refl hp : store_grows hp hp.
Proof. intros r n Hn. eauto. Qed.

Lemma store_grows_trans hp1 hp2 hp3 :
  store_grows hp1 hp2 → store_grows hp2 hp3 → store_grows hp1 hp3.
Proof.
  intros H12 H23 r n Hn.
  destruct (H12 r n Hn) as (n2 & Hn2 & ? & ? & ?).
  destruct (H23 r n2 Hn2) as (n3 & Hn3 & ? & ? & ?).
  exists n3. split_and!; auto; congruence.
Qed.

(** *** One neighbour *)

Section Visit.

Context (start : CityRef) (st : State) (cur : NodeRef) (cn nb : Node).
Context (Hinv : search_inv start st).
Context (H0 : 0 ∈ closed_list st) (Hcur : cur ∈ closed_list st).
Context (Hcn : heap st !! cur = Some cn).
Context (Hedge : edge (node_city cn) (node_city nb)).
Context (Hpar : node_parent nb = Some cur).
Context (Hg : node_g nb = (node_g cn + distance_to (node_city cn) (node_city nb))%Q).

(** The neighbour has an open node: its g may be lowered. *)
Lemma relax_keeps_inv hp' :
  length hp' = length (heap st) →
  (∀ r n, heap st !! r = Some n →
     hp' !! r = Some (if decide (r ∈ open_list st) then relaxed nb cur n else n)) →
  search_inv start {| heap := hp'; open_list := open_list st;
                      closed_list := closed_list st |} ∧
  store_grows (heap st) hp' ∧
  ∀ r, r ∈ closed_list st → hp' !! r = heap st !! r.
Proof.
  intros Hlen Hpt.
  assert (∀ r, r ∈ closed_list st → hp' !! r = heap st !! r) as Hclosed.
  { intros r Hr.
    destruct (in_store_lookup _ _ r (inv_closed_store _ _ Hinv) Hr) as [n Hn].
    rewrite Hn, (Hpt r n Hn), decide_False; [done|].
    intros Ho. eapply inv_disjoint; eauto. }
  assert (store_grows (heap st) hp') as Hgrow.
  { intros r n Hn. rewrite (Hpt r n Hn).
    destruct (decide (r ∈ open_list st)); [|eauto].
    eexists; split; [done|]. rewrite relaxed_city.
    destruct (relaxed_h_f nb cur n). auto. }
  assert (∀ r n', hp' !! r = Some n' → ∃ n, heap st !! r = Some n ∧
            n' = if decide (r ∈ open_list st) then relaxed nb cur n else n) as Hback.
  { intros r n' Hn'.
    assert (r < length (heap st)) as Hlt.
    { rewrite <- Hlen. by eapply lookup_lt_Some. }
    apply lookup_lt_is_Some_2 in Hlt as [n Hn].
    exists n. split; [done|]. rewrite (Hpt r n Hn) in Hn'. congruence. }
  split_and!; auto.
  destruct Hinv as [Hperm Hcities Hstart Hfirst Hparent Hreach].
  split; simpl.
  - by rewrite Hlen.
  - replace (node_city <$> hp') with (node_city <$> heap st); [done|].
    apply list_eq. intros r. rewrite !list_lookup_fmap.
    destruct (heap st !! r) as [n|] eqn:Hn.
    + destruct (Hgrow r n Hn) as (n' & Hn' & Hc & _).
      rewrite Hn'. simpl. by rewrite Hc.
    + apply lookup_ge_None in Hn. rewrite <- Hlen in Hn.
      apply lookup_ge_None in Hn. by rewrite Hn.
  - by rewrite (Hclosed 0 H0).
  - by left.
  - intros r n' Hn' Hr0.
    destruct (Hback r n' Hn') as (n & Hn & ->).
    destruct (Hparent r n Hn Hr0) as (p & pn & i & Hp & Hpn & He & Hgn & Hi & Hord).
    assert (hp' !! p = Some pn) as Hpn'.
    { rewrite Hclosed; [done|]. by eapply list_elem_of_lookup_2. }
    destruct (decide (r ∈ open_list st)) as [Ho|Ho]; [|by exists p, pn, i].
    unfold relaxed.
    destruct (decide (node_city nb = node_city n)) as [Hc|Hc]; [|by exists p, pn, i].
    destruct (Qlt_le_dec (node_g nb) (node_g n)); [|by exists p, pn, i].
    apply list_elem_of_lookup_1 in Hcur as [ic Hic].
    exists cur, cn, ic. simpl. split_and!; auto.
    + rewrite Hclosed; [done|]. by eapply list_elem_of_lookup_2.
    + by rewrite <- Hc.
    + by rewrite <- Hc.
    + intros j Hj. exfalso. eapply inv_disjoint; [split; eauto|done|].
      by eapply list_elem_of_lookup_2.
  - intros r n' Hn'. destruct (Hback r n' Hn') as (n & Hn & ->).
    destruct (decide (r ∈ open_list st)); [rewrite relaxed_city|]; eauto.
Qed.

(** The neighbour has no node yet: one is added to the open list. *)
Lemma append_keeps_inv :
  (∀ r n, heap st !! r = Some n → node_city n ≠ node_city nb) →
  search_inv start {| heap := heap st ++ [nb];
                      open_list := open_list st ++ [length (heap st)];
                      closed_list := closed_list st |} ∧
  store_grows (heap st) (heap st ++ [nb]) ∧
  ∀ r, r ∈ closed_list st → (heap st ++ [nb]) !! r = heap st !! r.
Proof.
  intros Hfresh.
  assert (∀ r n, heap st !! r = Some n → (heap st ++ [nb]) !! r = Some n) as Hold.
  { intros r n Hn. rewrite lookup_app_l; [done|]. by eapply lookup_lt_Some. }
  split_and!.
  2:{ intros r n Hn. exists n. auto. }
  2:{ intros r Hr.
      destruct (in_store_lookup _ _ r (inv_closed_store _ _ Hinv) Hr) as [n Hn].
      by rewrite Hn, (Hold r n Hn). }
  destruct Hinv as [Hperm Hcities Hstart Hfirst Hparent Hreach].
  split; simpl.
  - rewrite length_app. simpl. rewrite Nat.add_1_r, seq_S. simpl.
    rewrite <- Hperm. rewrite <- !app_assoc.
    apply Permutation_app_head, Permutation_app_comm.
  - rewrite fmap_app. simpl. apply NoDup_app. split_and!; auto.
    + intros c Hc Hc'. apply list_elem_of_singleton in Hc'. subst c.
      apply list_elem_of_fmap in Hc as (n & Hc & Hn).
      apply list_elem_of_lookup_1 in Hn as [r Hn]. by eapply Hfresh.
    + apply NoDup_singleton.
  - by apply Hold.
  - by left.
  - intros r n Hn Hr0.
    destruct (decide (r < length (heap st))) as [Hlt|Hge].
    + rewrite lookup_app_l in Hn by done.
      destruct (Hparent r n Hn Hr0) as (p & pn & i & Hp & Hpn & He & Hgn & Hi & Hord).
      exists p, pn, i. split_and!; auto.
    + assert (r = length (heap st)) as ->.
      { apply lookup_lt_Some in Hn. rewrite length_app in Hn. simpl in Hn. lia. }
      rewrite list_lookup_middle in Hn by done. simplify_eq.
      apply list_elem_of_lookup_1 in Hcur as [ic Hic].
      exists cur, cn, ic. split_and!; auto.
      intros j Hj. exfalso.
      apply list_elem_of_lookup_2 in Hj.
      assert (length (heap st) < length (heap st)); [|lia].
      apply (inv_refs start st); [split; eauto|auto].
  - intros r n Hn.
    destruct (decide (r < length (heap st))) as [Hlt|Hge].
    + rewrite lookup_app_l in Hn by done. eauto.
    + assert (r = length (heap st)) as ->.
      { apply lookup_lt_Some in Hn. rewrite length_app in Hn. simpl in Hn. lia. }
      rewrite list_lookup_middle in Hn by done. simplify_eq.
      eapply rtc_r; [exact (Hreach cur cn Hcn)|done].
Qed.

End Visit.

Lemma visit_spec start gn st cur cn c :
  search_inv start st → 0 ∈ closed_list st → cur ∈ closed_list st →
  heap st !! cur = Some cn → edge (node_city cn) c →
  ∃ st', visit gn cur c st = Done st' ∧ keeps start st st'.
Proof.
  intros Hinv H0 Hcur Hcn Hedge. unfold visit.
  destruct (in_closed_spec (heap st) (closed_list st) c (inv_closed_store _ _ Hinv))
    as (b & -> & Hb).
  cbn [obind]. destruct b.
  { exists st. split; [done|]. split_and!; auto using store_grows_refl. }
  rewrite (read_Done _ _ _ Hcn). cbn [obind].
  set (nb := make_neighbour gn cn cur c).
  destruct (update_open_spec nb cur (open_list st) (heap st) false
              (inv_open_store _ _ Hinv)) as (hp' & b' & -> & Hlen & Hb' & Hpt).
  cbn [obind]. destruct b'.
  - eexists; split; [done|].
    destruct (relax_keeps_inv start st cur cn nb Hinv H0 Hcur Hcn Hedge
                eq_refl hp' Hlen Hpt) as (? & ? & ?).
    split_and!; auto.
  - assert (∀ r n, heap st !! r = Some n → node_city n ≠ node_city nb) as Hfresh.
    { intros r n Hn Hc.
      assert (r ∈ open_list st ∨ r ∈ closed_list st) as [Ho|Hcl].
      { apply (inv_refs start st r Hinv). by eapply lookup_lt_Some. }
      - assert (false = true); [|done]. apply Hb'. right. eauto.
      - assert (false = true); [|done]. apply Hb. exists r, n. auto. }
    assert (hp' = heap st) as ->.
    { apply list_eq. intros r.
      destruct (heap st !! r) as [n|] eqn:Hn.
      - rewrite (Hpt r n Hn). destruct (decide (r ∈ open_list st)); [|done].
        rewrite relaxed_other; [done|]. intros Hc. by eapply Hfresh.
      - apply lookup_ge_None in Hn. rewrite <- Hlen in Hn.
        by apply lookup_ge_None in Hn. }
    eexists; split; [done|].
    destruct (append_keeps_inv start st cur cn nb Hinv H0 Hcur Hcn Hedge
                eq_refl eq_refl Hfresh) as (? & ? & ?).
    split_and!; auto.
Qed.

(** *** All the neighbours of the current node *)

Lemma expand_spec start gn cur cn ns :
  ∀ st,
  search_inv start st → 0 ∈ closed_list st → cur ∈ closed_list st →
  heap st !! cur = Some cn → Forall (edge (node_city cn)) ns →
  ∃ st', expand gn cur ns st = Done st' ∧ keeps start st st'.
Proof.
  induction ns as [|c rest IH]; intros st Hinv H0 Hcur Hcn Hns.
  - exists st. split; [done|]. split_and!; auto using store_grows_refl.
  - apply Forall_cons in Hns as [Hc Hrest]. simpl.
    destruct (visit_spec start gn st cur cn c Hinv H0 Hcur Hcn Hc)
      as (st1 & -> & Hinv1 & Hcl1 & Hgrow1 & Hsame1).
    cbn [obind].
    destruct (IH st1 Hinv1) as (st' & -> & Hinv' & Hcl' & Hgrow' & Hsame');
      auto; try congruence.
    { rewrite Hsame1; done. }
    exists st'. split; [done|]. split_and!; auto; try congruence.
    + eapply store_grows_trans; eauto.
    + intros r Hr. rewrite Hsame', Hsame1; auto. congruence.
Qed.

(** *** Selecting a node keeps the shape of the state *)

Lemma select_keeps_inv start st i r :
  search_inv start st → open_list st !! i = Some r →
  search_inv start {| heap := heap st; open_list := delete i (open_list st);
                      closed_list := closed_list st ++ [r] |}.
Proof.
  intros Hinv Hi.
  pose proof Hinv as [Hperm Hcities Hstart Hfirst Hparent Hreach].
  split; simpl; auto.
  - rewrite <- Hperm. rewrite (delete_Permutation (open_list st) i r Hi) at 2.
    rewrite app_assoc. apply (Permutation_app_comm _ [r]).
  - left. destruct Hfirst as [H0|[Ho Hc]].
    + apply elem_of_app. by left.
    + rewrite Ho in Hi. destruct i; simpl in Hi; simplify_eq.
      apply elem_of_app. right. by apply list_elem_of_singleton.
  - intros r' n Hn Hr0.
    destruct (Hparent r' n Hn Hr0) as (p & pn & ip & Hp & Hpn & He & Hgn & Hip & Hord).
    exists p, pn, ip. split_and!; auto.
    + rewrite lookup_app_l; [done|]. by eapply lookup_lt_Some.
    + intros j Hj. destruct (decide (j < length (closed_list st))) as [Hlt|Hge].
      * rewrite lookup_app_l in Hj by done. auto.
      * apply lookup_lt_Some in Hip. lia.
Qed.

(** *** Paths *)

Lemma route_head start path c : route start path c → head path = Some start.
Proof.
  induction 1 as [|path c d Hr IH He]; [done|].
  destruct path; [done|]. done.
Qed.

Lemma route_last start path c : route start path c → last path = Some c.
Proof. destruct 1; [done|]. apply last_snoc. Qed.

Lemma route_linked start path c : route start path c → linked path.
Proof.
  induction 1 as [|path c d Hr IH He]; intros i u v Hu Hv.
  - destruct i; simpl in *; simplify_eq.
  - pose proof (route_last _ _ _ Hr) as Hlast.
    rewrite last_lookup in Hlast.
    assert (length path ≠ 0) as Hne.
    { intros Hz. apply nil_length_inv in Hz. subst. by inversion Hr. }
    destruct (decide (S i < length path)) as [Hlt|Hge].
    + rewrite lookup_app_l in Hu by lia. rewrite lookup_app_l in Hv by lia.
      by eapply IH.
    + assert (S i = length path) as Hi.
      { apply lookup_lt_Some in Hv. rewrite length_app in Hv. simpl in Hv. lia. }
      rewrite Hi, list_lookup_middle in Hv by done.
      rewrite lookup_app_l in Hu by lia.
      replace (pred (length path)) with i in Hlast by lia.
      by simplify_eq.
Qed.

Lemma route_reachable start path c : route start path c → reachable start c.
Proof.
  induction 1 as [|path c d Hr IH He]; [apply rtc_refl|].
  by eapply rtc_r.
Qed.

Lemma path_cost_from_snoc acc c rest d e :
  last (c :: rest) = Some d →
  path_cost_from acc c (rest ++ [e]) =
  (path_cost_from acc c rest + distance_to d e)%Q.
Proof.
  revert acc c. induction rest as [|c' rest IH]; intros acc c Hlast; simpl.
  - simpl in Hlast. by simplify_eq.
  - apply IH. by rewrite last_cons_cons in Hlast.
Qed.

Lemma path_cost_snoc start path c d :
  route start path c →
  path_cost (path ++ [d]) = (path_cost path + distance_to c d)%Q.
Proof.
  intros Hr. pose proof (route_last _ _ _ Hr) as Hlast.
  destruct path as [|c0 rest]; [done|]. simpl.
  by apply path_cost_from_snoc.
Qed.

(** *** The walk back along the parent links *)

Lemma walk_None fuel hp path : walk fuel hp None path = Done path.
Proof. by destruct fuel. Qed.

Lemma walk_spec start st :
  search_inv start st →
  ∀ j r, closed_list st !! j = Some r →
  ∀ fuel acc, j < fuel →
  ∃ p n, heap st !! r = Some n ∧
    walk fuel (heap st) (Some r) acc = Done (acc ++ p) ∧
    route start (reverse p) (node_city n) ∧
    path_cost (reverse p) = node_g n.
Proof.
  intros Hinv j. induction j as [j IH] using lt_wf_ind.
  intros r Hj fuel acc Hfuel.
  destruct fuel as [|fuel]; [lia|].
  destruct (decide (r = 0)) as [->|Hr0].
  - exists [start], (Node_init None start).
    pose proof (inv_start _ _ _ _ Hinv) as H0.
    split_and!; auto.
    + simpl. rewrite (read_Done _ _ _ H0). cbn [obind]. apply walk_None.
    + apply route_start.
  - assert (r < length (heap st)) as Hlt.
    { apply (inv_refs start st r Hinv). right. by eapply list_elem_of_lookup_2. }
    apply lookup_lt_is_Some_2 in Hlt as [n Hn].
    destruct (inv_parent _ _ _ _ Hinv r n Hn Hr0)
      as (p & pn & i & Hp & Hpn & He & Hgn & Hi & Hord).
    specialize (Hord j Hj).
    destruct (IH i Hord p Hi fuel (acc ++ [node_city n]))
      as (path & pn' & Hpn' & Hwalk & Hroute & Hcost); [lia|].
    lookup_eq.
    exists (node_city n :: path), n. split_and!; auto.
    + simpl. rewrite (read_Done _ _ _ Hn). cbn [obind].
      rewrite Hp, Hwalk. by rewrite <- app_assoc.
    + rewrite reverse_cons. by eapply route_snoc.
    + rewrite reverse_cons, (path_cost_snoc _ _ _ _ Hroute). congruence.
Qed.

(** *** One iteration of the main loop *)

Lemma body_spec start gn st :
  search_inv start st → open_list st ≠ [] →
  ∃ i r cn,
    select st = Done (r, selected st i r) ∧
    open_list st !! i = Some r ∧ heap st !! r = Some cn ∧
    first_min_f (heap st) (open_list st) i ∧
    ((node_city cn = node_city gn ∧
      ∃ path, body gn st = Done (Return path) ∧
        route start path (node_city cn) ∧ path_cost path = node_g cn) ∨
     (node_city cn ≠ node_city gn ∧
      ∃ st', body gn st = Done (Next st') ∧ keeps start (selected st i r) st')).
Proof.
  intros Hinv Hne.
  destruct (select_spec st Hne (inv_open_store _ _ Hinv)) as (i & r & Hsel & Hi & Hmin).
  pose proof (select_keeps_inv start st i r Hinv Hi) as Hinv1.
  fold (selected st i r) in Hsel, Hinv1.
  assert (r ∈ open_list st) as Hr by by eapply list_elem_of_lookup_2.
  destruct (in_store_lookup _ _ r (inv_open_store _ _ Hinv) Hr) as [cn Hcn].
  exists i, r, cn. split_and!; auto.
  unfold body. rewrite Hsel. cbn [obind].
  change (heap (selected st i r)) with (heap st).
  rewrite (read_Done _ _ _ Hcn). cbn [obind].
  assert (closed_list (selected st i r) !! length (closed_list st) = Some r) as Hlast.
  { simpl. by rewrite list_lookup_middle. }
  destruct (decide (node_city cn = node_city gn)) as [Hgoal|Hgoal]; [left|right].
  - split; [done|].
    destruct (walk_spec start _ Hinv1 _ r Hlast (length (heap st)) [])
      as (p & n & Hn & Hwalk & Hroute & Hcost).
    { pose proof (inv_lengths _ _ Hinv). destruct (open_list st); simpl in *; [done|lia]. }
    simpl in Hn, Hwalk. lookup_eq. rewrite Hwalk. cbn [obind]. eauto.
  - split; [done|].
    destruct (expand_spec start gn r cn (neighbours (city (node_city cn)))
                (selected st i r) Hinv1) as (st' & -> & Hkeeps); eauto.
    + destruct (inv_first _ _ _ _ Hinv1) as [?|[_ Hnil]]; [done|].
      simpl in Hnil. by apply app_eq_nil in Hnil as [_ ?].
    + by eapply list_elem_of_lookup_2.
    + by apply Forall_forall.
Qed.

(** *** Several iterations *)

Lemma iterations_keep start gn k st st' :
  search_inv start st → iterations gn k st st' →
  search_inv start st' ∧
  (∃ l, closed_list st' = closed_list st ++ l ∧ length l = k) ∧
  store_grows (heap st) (heap st') ∧
  ∀ r, r ∈ closed_list st → heap st' !! r = heap st !! r.
Proof.
  intros Hinv Hit. induction Hit as [st|k st st1 st' Hne Hbody Hit IH].
  - split_and!; auto using store_grows_refl. exists []. by rewrite app_nil_r.
  - destruct (body_spec start gn st Hinv Hne)
      as (i & r & cn & Hsel & Hi & Hcn & Hmin & [(_ & path & Hb & _)|(_ & st2 & Hb & Hk)]);
      rewrite Hb in Hbody; simplify_eq.
    destruct Hk as (Hinv1 & Hcl1 & Hgrow1 & Hsame1).
    destruct (IH Hinv1) as (Hinv' & (l & Hcl' & Hlen) & Hgrow' & Hsame').
    simpl in Hcl1, Hgrow1, Hsame1.
    split_and!; auto.
    + exists (r :: l). rewrite Hcl', Hcl1, <- app_assoc. simpl. auto.
    + eapply store_grows_trans; eauto.
    + intros r' Hr'. rewrite Hsame'.
      * apply Hsame1. apply elem_of_app. by left.
      * rewrite Hcl1. apply elem_of_app. by left.
Qed.

Lemma iterations_split gn k1 k2 st1 st3 :
  iterations gn (k1 + k2) st1 st3 →
  ∃ st2, iterations gn k1 st1 st2 ∧ iterations gn k2 st2 st3.
Proof.
  revert st1. induction k1 as [|k1 IH]; intros st1 Hit; simpl in Hit.
  - exists st1. split; [constructor|done].
  - inversion Hit as [|k st sta st' Hne Hbody Hit']; subst.
    destruct (IH sta Hit') as (st2 & H1 & H2).
    exists st2. split; [|done]. eapply iterations_S; eauto.
Qed.

(** *** The main loop and its iterations *)

Lemma loop_Some fuel gn path :
  ∀ st, a_star_loop fuel gn st = Done (Some path) →
  ∃ k st', iterations gn k st st' ∧ open_list st' ≠ [] ∧
           body gn st' = Done (Return path).
Proof.
  induction fuel as [|fuel IH]; intros st Hloop; [done|].
  simpl in Hloop. destruct (open_list st) as [|r0 rest] eqn:Hol; [done|].
  destruct (body gn st) as [[st1|p]| |] eqn:Hbody; simpl in Hloop; try done.
  - destruct (IH st1 Hloop) as (k & st' & Hit & Hne & Hb).
    exists (S k), st'. split_and!; auto.
    eapply iterations_S; eauto. by rewrite Hol.
  - simplify_eq. exists 0, st. split_and!; auto; [constructor|by rewrite Hol].
Qed.

Lemma loop_None fuel gn st :
  a_star_loop fuel gn st = Done None ↔
  ∃ k st', k < fuel ∧ iterations gn k st st' ∧ open_list st' = [].
Proof.
  split.
  - revert st. induction fuel as [|fuel IH]; intros st Hloop; [done|].
    simpl in Hloop. destruct (open_list st) as [|r0 rest] eqn:Hol.
    { exists 0, st. split_and!; auto; [lia|constructor]. }
    destruct (body gn st) as [[st1|p]| |] eqn:Hbody; simpl in Hloop; try done.
    destruct (IH st1 Hloop) as (k & st' & Hk & Hit & Hnil).
    exists (S k), st'. split_and!; auto; [lia|].
    eapply iterations_S; eauto. by rewrite Hol.
  - intros (k & st' & Hk & Hit & Hnil). revert fuel Hk.
    induction Hit as [st|k st st1 st' Hne Hbody Hit IH]; intros fuel Hk.
    + destruct fuel; [lia|]. simpl. by rewrite Hnil.
    + destruct fuel as [|fuel]; [lia|]. simpl.
      destruct (open_list st); [done|]. rewrite Hbody. simpl.
      apply IH; [done|lia].
Qed.

(** The store holds at most one node for each city within reach. *)
Lemma inv_heap_bound start st V :
  search_inv start st → (∀ c, reachable start c → c ∈ V) →
  length (heap st) ≤ length V.
Proof.
  intros Hinv HV. rewrite <- (length_fmap node_city).
  apply submseteq_length, NoDup_submseteq; [apply (inv_cities _ _ _ _ Hinv)|].
  intros c Hc. apply list_elem_of_fmap in Hc as (n & -> & Hn).
  apply list_elem_of_lookup_1 in Hn as [r Hn].
  apply HV. by eapply inv_reach.
Qed.

Lemma loop_total start gn V :
  (∀ c, reachable start c → c ∈ V) →
  ∀ fuel st, search_inv start st →
  length V < length (closed_list st) + fuel →
  ∃ res, a_star_loop fuel gn st = Done res.
Proof.
  intros HV. induction fuel as [|fuel IH]; intros st Hinv Hfuel.
  - pose proof (inv_heap_bound _ _ _ Hinv HV).
    pose proof (inv_lengths _ _ Hinv). lia.
  - simpl. destruct (open_list st) as [|r0 rest] eqn:Hol; [eauto|].
    destruct (body_spec start gn st Hinv)
      as (i & r & cn & Hsel & Hi & Hcn & Hmin & [(_ & path & -> & _)|(_ & st2 & -> & Hk)]).
    { by rewrite Hol. }
    + simpl. eauto.
    + simpl. destruct Hk as (Hinv2 & Hcl2 & _). apply IH; [done|].
      rewrite Hcl2. simpl. rewrite length_app. simpl. lia.
Qed.

Lemma init_inv start : search_inv start (init_state start).
Proof.
  split; simpl; auto.
  - apply NoDup_singleton.
  - intros [|r] n Hn Hr0; [done|]. simpl in Hn. by rewrite lookup_nil in Hn.
  - intros [|r] n Hn; simpl in Hn.
    + simplify_eq. apply rtc_refl.
    + by rewrite lookup_nil in Hn.
Qed.

(** *** Inside the loop over the neighbours *)

Lemma expanding_inv start goal r ns st :
  expanding start goal r ns st →
  search_inv start st ∧ 0 ∈ closed_list st ∧ r ∈ closed_list st ∧
  ∃ cn, heap st !! r = Some cn ∧ Forall (edge (node_city cn)) ns.
Proof.
  induction 1 as [k st r st1 cur Hloop Hne Hsel Hcur Hgoal
                 |r c rest st st' Hexp IH Hvisit].
  - destruct (iterations_keep start _ _ _ _ (init_inv start) Hloop) as (Hinv & _).
    destruct (select_spec st Hne (inv_open_store _ _ Hinv))
      as (i & r' & Hsel' & Hi & _).
    rewrite Hsel' in Hsel. injection Hsel as -> <-.
    pose proof (select_keeps_inv start st i r Hinv Hi) as Hinv1.
    split_and!; auto.
    + destruct (inv_first _ _ _ _ Hinv1) as [?|[_ Hnil]]; [done|].
      simpl in Hnil. by apply app_eq_nil in Hnil as [_ ?].
    + simpl. apply elem_of_app. right. by apply list_elem_of_singleton.
    + exists cur. split; [done|]. by apply Forall_forall.
  - destruct IH as (Hinv & H0 & Hr & cn & Hcn & Hns).
    apply Forall_cons in Hns as [Hc Hrest].
    destruct (visit_spec start (Node_init None goal) st r cn c Hinv H0 Hr Hcn Hc)
      as (st2 & Hvisit' & Hinv' & Hcl & _ & Hsame).
    rewrite Hvisit' in Hvisit. injection Hvisit as ->.
    rewrite Hcl. split_and!; auto.
    exists cn. split; [|done]. by rewrite Hsame.
Qed.

Lemma inv_closed_apart start st : search_inv start st → closed_apart st.
Proof.
  intros Hinv. split; [by eapply inv_closed_NoDup|].
  intros r n r' n' _ Hn _ Hn' Hc. by eapply inv_city_inj.
Qed.

Lemma inv_hangs start st : search_inv start st → hangs_on_closed start st.
Proof.
  intros Hinv. split; [apply (inv_start _ _ _ _ Hinv)|].
  intros r n Hn Hr0.
  destruct (inv_parent _ _ _ _ Hinv r n Hn Hr0)
    as (p & pn & i & Hp & Hpn & _ & Hg & Hi & _).
  exists p, pn. split_and!; auto. by eapply list_elem_of_lookup_2.
Qed.

(** Every city within reach of [start] is in [V] when [V] holds [start]
    and the neighbours of its members. *)
Lemma reachable_in_closure start (V : list CityRef) :
  start ∈ V → Forall (λ c, Forall (λ d, d ∈ V) (neighbours (city c))) V →
  ∀ c, reachable start c → c ∈ V.
Proof.
  intros Hs HV c Hreach. induction Hreach as [|c d e Hcd Hde IH]; [done|].
  apply IH. rewrite Forall_forall in HV. specialize (HV c Hs).
  rewrite Forall_forall in HV. by apply HV.
Qed.

(** A returned path is a route to the goal whose cost is the g of the
    goal's node when it was selected. *)
Lemma returned_path_route fuel start goal path :
  a_star fuel start goal = Done (Some path) →
  (∃ k st i r gn,
     loop_state start goal k st ∧ select st = Done (r, selected st i r) ∧
     heap st !! r = Some gn ∧ node_city gn = goal ∧
     path_cost path = node_g gn) ∧
  route start path goal.
Proof.
  intros Hres. apply loop_Some in Hres as (k & st & Hit & Hne & Hbody).
  destruct (iterations_keep start _ _ _ _ (init_inv start) Hit) as (Hinv & _).
  destruct (body_spec start (Node_init None goal) st Hinv Hne)
    as (i & r & cn & Hsel & _ & Hcn & _ &
        [(Hc & p & Hb & Hroute & Hcost)|(_ & st' & Hb & _)]);
    rewrite Hb in Hbody; simplify_eq.
  simpl in Hc. rewrite Hc in Hroute. split; [|done].
  exists k, st, i, r, cn. split_and!; auto.
Qed.

(** ** The properties of [a_star] *)

(** C2. Every path that [a_star start goal] returns begins with [start],
    ends with [goal], and each of its entries is in the neighbours list of
    the entry before it. *)
Theorem a_star_path_valid fuel start goal path :
  a_star fuel start goal = Done (Some path) →
  head path = Some start ∧ last path = Some goal ∧ linked path.
Proof.
  intros Hres.
  destruct (returned_path_route fuel start goal path Hres) as (_ & Hroute).
  split_and!; eauto using route_head, route_last, route_linked.
Qed.

(** C4. When the start is the goal, [a_star] returns the path [start],
    whose cost is 0. *)
Theorem a_star_trivial fuel start :
  a_star (S fuel) start start = Done (Some [start]) ∧ path_cost [start] = 0%Q.
Proof.
  split; [|done].
  unfold a_star, init_state. simpl. unfold body, select. simpl.
  by rewrite decide_True.
Qed.

(** C5, as the code has it.  Before the first iteration the store holds
    the start node alone, with g, h and f all 0: the heuristic is not
    evaluated for the start node.  The open list holds that node alone and
    the closed list is empty. *)
Theorem a_star_initial_state fuel start goal :
  a_star fuel start goal =
    a_star_loop fuel (Node_init None goal) (init_state start) ∧
  heap (init_state start) =
    [ {| node_city := start; node_parent := None;
         node_g := 0; node_h := 0; node_f := 0 |} ] ∧
  open_list (init_state start) = [0] ∧
  closed_list (init_state start) = [].
Proof. by split_and!. Qed.

(** A visit of a city that has an open node and no closed node, in any
    state. *)
Lemma visit_open_entry gn cur c st cn r n :
  in_store (heap st) (open_list st) →
  in_store (heap st) (closed_list st) →
  heap st !! cur = Some cn →
  (∀ r' n', r' ∈ closed_list st → heap st !! r' = Some n' → node_city n' ≠ c) →
  r ∈ open_list st → heap st !! r = Some n → node_city n = c →
  ∃ st', visit gn cur c st = Done st' ∧
    open_list st' = open_list st ∧
    closed_list st' = closed_list st ∧
    length (heap st') = length (heap st) ∧
    heap st' !! r = Some
      (if Qlt_le_dec (node_g cn + distance_to (node_city cn) c) (node_g n)
       then {| node_city := c; node_parent := Some cur;
               node_g := node_g cn + distance_to (node_city cn) c;
               node_h := node_h n; node_f := node_f n |}
       else n) ∧
    ∀ r' n', heap st !! r' = Some n' → node_city n' ≠ c →
      heap st' !! r' = Some n'.
Proof.
  intros Hopen Hclosed Hcn Hnotclosed Hr Hn Hc. unfold visit.
  destruct (in_closed_spec (heap st) (closed_list st) c Hclosed) as (b & -> & Hb).
  cbn [obind]. destruct b.
  { destruct Hb as [Hb _]. destruct (Hb eq_refl) as (r' & n' & Hr' & Hn' & Hc').
    by destruct (Hnotclosed r' n' Hr' Hn'). }
  rewrite (read_Done _ _ _ Hcn). cbn [obind].
  set (nb := make_neighbour gn cn cur c).
  destruct (update_open_spec nb cur (open_list st) (heap st) false Hopen)
    as (hp' & b' & -> & Hlen & Hb' & Hpt).
  cbn [obind]. destruct b'.
  2:{ assert (false = true); [|done]. apply Hb'. right. exists r, n. auto. }
  eexists. split; [done|]. simpl. split_and!; auto.
  - rewrite (Hpt r n Hn), decide_True by done. unfold relaxed.
    rewrite decide_True by done. simpl.
    destruct (Qlt_le_dec _ _); [|done]. by rewrite Hc.
  - intros r' n' Hn' Hc'. rewrite (Hpt r' n' Hn').
    destruct (decide (r' ∈ open_list st)); [|done].
    rewrite relaxed_other; [done|]. simpl. congruence.
Qed.

(** C6. During the expansion of the current node, when the neighbour to
    visit has a node in the open list and the cost through the current node
    is lower than the g of that node, the node gets this cost as its g and
    the current node as its parent, and keeps its h and f; otherwise it is
    left as it is.  In both cases the open list is unchanged, so no entry
    is added, and no other node is written to. *)
Theorem visit_open_neighbour start goal cur c rest st cn r n :
  expanding start goal cur (c :: rest) st →
  heap st !! cur = Some cn →
  r ∈ open_list st → heap st !! r = Some n → node_city n = c →
  ∃ st', visit (Node_init None goal) cur c st = Done st' ∧
    open_list st' = open_list st ∧
    closed_list st' = closed_list st ∧
    length (heap st') = length (heap st) ∧
    heap st' !! r = Some
      (if Qlt_le_dec (node_g cn + distance_to (node_city cn) c) (node_g n)
       then {| node_city := c; node_parent := Some cur;
               node_g := node_g cn + distance_to (node_city cn) c;
               node_h := node_h n; node_f := node_f n |}
       else n) ∧
    ∀ r' n', heap st !! r' = Some n' → r' ≠ r → heap st' !! r' = Some n'.
Proof.
  intros Hexp Hcn Hr Hn Hc.
  destruct (expanding_inv _ _ _ _ _ Hexp) as (Hinv & _).
  destruct (visit_open_entry (Node_init None goal) cur c st cn r n)
    as (st' & Hvisit & Hol & Hcl & Hlen & Hnew & Hothers); auto.
  - by eapply inv_open_store.
  - by eapply inv_closed_store.
  - intros r' n' Hr' Hn' Hc'.
    assert (r' = r) as -> by (eapply inv_city_inj; eauto; congruence).
    eapply inv_disjoint; eauto.
  - exists st'. split_and!; auto.
    intros r' n' Hn' Hne. apply Hothers; [done|].
    intros Hc'. apply Hne. eapply inv_city_inj; eauto. congruence.
Qed.
(** C7. During the expansion of the current node a neighbour whose
    city has a closed node is skipped: the visit leaves the state as it is.
    Along the search the closed list only grows at its end, a visit does not
    change it, closed nodes are no longer written to, and a city with a
    closed node has no other node, open or closed. *)
Theorem closed_is_permanent start goal :
  (∀ cur c rest st r n,
     expanding start goal cur (c :: rest) st →
     r ∈ closed_list st → heap st !! r = Some n → node_city n = c →
     visit (Node_init None goal) cur c st = Done st) ∧
  (∀ k st, loop_state start goal k st →
     closed_apart st ∧
     ∀ k' st', iterations (Node_init None goal) k' st st' →
       (∃ l, closed_list st' = closed_list st ++ l) ∧
       ∀ r, r ∈ closed_list st → heap st' !! r = heap st !! r) ∧
  (∀ cur c rest st, expanding start goal cur (c :: rest) st →
     closed_apart st ∧
     ∃ st', visit (Node_init None goal) cur c st = Done st' ∧
       closed_list st' = closed_list st ∧
       ∀ r, r ∈ closed_list st → heap st' !! r = heap st !! r).
Proof.
  split_and!.
  - intros cur c rest st r n Hexp Hr Hn Hc.
    destruct (expanding_inv _ _ _ _ _ Hexp) as (Hinv & _).
    unfold visit.
    destruct (in_closed_spec (heap st) (closed_list st) c (inv_closed_store _ _ Hinv))
      as (b & -> & Hb).
    cbn [obind]. destruct b; [done|].
    assert (false = true); [|done]. apply Hb. exists r, n. auto.
  - intros k st Hloop.
    destruct (iterations_keep start _ _ _ _ (init_inv start) Hloop) as (Hinv & _).
    split; [by eapply inv_closed_apart|].
    intros k' st' Hit.
    destruct (iterations_keep start _ _ _ _ Hinv Hit)
      as (_ & (l & Hl & _) & _ & Hsame). eauto.
  - intros cur c rest st Hexp.
    destruct (expanding_inv _ _ _ _ _ Hexp) as (Hinv & H0 & Hcur & cn & Hcn & Hns).
    apply Forall_cons in Hns as [Hc _].
    split; [by eapply inv_closed_apart|].
    destruct (visit_spec start (Node_init None goal) st cur cn c Hinv H0 Hcur Hcn Hc)
      as (st' & Hvisit & _ & Hcl & _ & Hsame).
    exists st'. auto.
Qed.
(** The node closed by iteration [j + 1] of the search. *)
Lemma closed_history start goal k st j r :
  loop_state start goal k st → closed_list st !! j = Some r →
  ∃ st_j i,
    loop_state start goal j st_j ∧ open_list st_j ≠ [] ∧
    select st_j = Done (r, selected st_j i r) ∧
    open_list st_j !! i = Some r ∧
    first_min_f (heap st_j) (open_list st_j) i.
Proof.
  intros Hloop Hj. set (gn := Node_init None goal) in *.
  destruct (iterations_keep start _ _ _ _ (init_inv start) Hloop)
    as (Hinv & (l & Hcl & Hlen) & _).
  simpl in Hcl.
  assert (j < k) as Hjk.
  { rewrite <- Hlen, <- Hcl. by eapply lookup_lt_Some. }
  unfold loop_state in Hloop. fold gn in Hloop.
  replace k with (j + S (k - S j)) in Hloop by lia.
  apply iterations_split in Hloop as (st_j & H1 & H2).
  inversion H2 as [|m sta st1 stb Hne Hbody Hrest Hm Hsta Hstb].
  clear Hm Hsta Hstb sta stb m.
  destruct (iterations_keep start _ _ _ _ (init_inv start) H1)
    as (Hinvj & (lj & Hclj & Hlenj) & _).
  simpl in Hclj.
  destruct (body_spec start gn st_j Hinvj Hne)
    as (i & r' & cn & Hsel & Hi & Hcn & Hmin &
        [(_ & path & Hb & _)|(_ & st2 & Hb & Hk)]);
    rewrite Hb in Hbody; [discriminate|].
  injection Hbody as ->.
  destruct Hk as (Hinv1 & Hcl1 & _).
  destruct (iterations_keep start _ _ _ _ Hinv1 Hrest) as (_ & (l' & Hcl' & _) & _).
  simpl in Hcl1. rewrite Hcl', Hcl1, Hclj, <- app_assoc in Hj.
  rewrite <- Hlenj in Hj. simpl in Hj.
  rewrite list_lookup_middle in Hj by done.
  injection Hj as <-.
  exists st_j, i. split_and!; auto.
Qed.

(** C8. In a non-empty open list [select] takes an entry whose f no
    entry is below, and of which every earlier entry has a higher f: the
    first entry of lowest f.  It moves that entry to the end of the closed
    list.  Hence every closed node was such an entry of the open list of
    the iteration that closed it. *)
Theorem select_first_min_f start goal :
  (∀ st, open_list st ≠ [] → in_store (heap st) (open_list st) →
     ∃ i r, select st = Done (r, selected st i r) ∧
       open_list st !! i = Some r ∧
       first_min_f (heap st) (open_list st) i) ∧
  (∀ k st j r, loop_state start goal k st → closed_list st !! j = Some r →
     ∃ st_j i, loop_state start goal j st_j ∧
       select st_j = Done (r, selected st_j i r) ∧
       open_list st_j !! i = Some r ∧
       first_min_f (heap st_j) (open_list st_j) i).
Proof.
  split.
  - intros st Hne Hst. apply select_spec; done.
  - intros k st j r Hloop Hj.
    destruct (closed_history start goal k st j r Hloop Hj)
      as (st_j & i & ? & ? & ? & ? & ?).
    exists st_j, i. auto.
Qed.


(** C10. At every loop test of the search, and between any two visits of
    a neighbour, node 0 is the start node and every other node of the store
    has a closed node as its parent and has as its g the g of that parent
    plus the distance from the parent's city to its own.  Neither an
    iteration nor a visit writes to a closed node.  The cost of a returned
    path, the sum of the distances between its consecutive cities, is the g
    of the goal's node when it was selected. *)
Theorem parent_cost_chain start goal :
  (∀ k st, loop_state start goal k st →
     hangs_on_closed start st ∧
     ∀ k' st', iterations (Node_init None goal) k' st st' →
       ∀ r, r ∈ closed_list st → heap st' !! r = heap st !! r) ∧
  (∀ cur ns st, expanding start goal cur ns st →
     hangs_on_closed start st ∧
     ∀ c st', visit (Node_init None goal) cur c st = Done st' →
       ∀ r, r ∈ closed_list st → heap st' !! r = heap st !! r) ∧
  (∀ fuel path, a_star fuel start goal = Done (Some path) →
     ∃ k st i r gn,
       loop_state start goal k st ∧ select st = Done (r, selected st i r) ∧
       heap st !! r = Some gn ∧ node_city gn = goal ∧
       path_cost path = node_g gn).
Proof.
  split_and!.
  - intros k st Hloop.
    destruct (iterations_keep start _ _ _ _ (init_inv start) Hloop) as (Hinv & _).
    split; [by apply inv_hangs|].
    intros k' st' Hit.
    by destruct (iterations_keep start _ _ _ _ Hinv Hit) as (_ & _ & _ & ?).
  - intros cur ns st Hexp.
    destruct (expanding_inv _ _ _ _ _ Hexp) as (Hinv & H0 & Hcur & cn & Hcn & _).
    split; [by apply inv_hangs|].
    intros c st' Hvisit r Hr.
    destruct (in_closed_spec (heap st) (closed_list st) c (inv_closed_store _ _ Hinv))
      as (b & Hb & _).
    destruct (update_open_spec (make_neighbour (Node_init None goal) cn cur c) cur
                (open_list st) (heap st) false (inv_open_store _ _ Hinv))
      as (hp' & b' & Hupd & Hlen & _ & Hpt).
    destruct (in_store_lookup _ _ r (inv_closed_store _ _ Hinv) Hr) as [n Hn].
    assert (hp' !! r = Some n) as Hn'.
    { rewrite (Hpt r n Hn), decide_False; [done|].
      intros Ho. eapply inv_disjoint; eauto. }
    unfold visit in Hvisit. rewrite Hb in Hvisit. cbn [obind] in Hvisit.
    destruct b; [by simplify_eq|].
    rewrite (read_Done _ _ _ Hcn) in Hvisit. cbn [obind] in Hvisit.
    rewrite Hupd in Hvisit. cbn [obind] in Hvisit.
    destruct b'; injection Hvisit as <-; simpl; rewrite Hn; [done|].
    rewrite lookup_app_l; [done|]. by eapply lookup_lt_Some.
  - intros fuel path Hres.
    by destruct (returned_path_route fuel start goal path Hres) as (? & _).
Qed.

(** ** More on the search *)

(** *** The three ways of a visit *)

Lemma visit_cases gn st cur cn c :
  in_store (heap st) (open_list st) →
  in_store (heap st) (closed_list st) →
  heap st !! cur = Some cn →
  ((∃ r n, r ∈ closed_list st ∧ heap st !! r = Some n ∧ node_city n = c) ∧
   visit gn cur c st = Done st) ∨
  ((∃ r n, r ∈ open_list st ∧ heap st !! r = Some n ∧ node_city n = c) ∧
   ∃ hp',
     visit gn cur c st =
       Done {| heap := hp'; open_list := open_list st;
               closed_list := closed_list st |} ∧
     length hp' = length (heap st) ∧
     ∀ r n, heap st !! r = Some n →
       hp' !! r = Some (if decide (r ∈ open_list st)
                        then relaxed (make_neighbour gn cn cur c) cur n else n)) ∨
  ((∀ r n, r ∈ open_list st ++ closed_list st → heap st !! r = Some n →
      node_city n ≠ c) ∧
   visit gn cur c st =
     Done {| heap := heap st ++ [make_neighbour gn cn cur c];
             open_list := open_list st ++ [length (heap st)];
             closed_list := closed_list st |}).
Proof.
  intros Hopen Hclosed Hcn. unfold visit.
  destruct (in_closed_spec (heap st) (closed_list st) c Hclosed) as (b & -> & Hb).
  cbn [obind]. destruct b.
  { left. split; [by apply Hb|done]. }
  right. rewrite (read_Done _ _ _ Hcn). cbn [obind].
  set (nb := make_neighbour gn cn cur c).
  destruct (update_open_spec nb cur (open_list st) (heap st) false Hopen)
    as (hp' & b' & -> & Hlen & Hb' & Hpt).
  cbn [obind]. destruct b'.
  - left. split; [|eauto].
    destruct Hb' as [Hb' _]. by destruct (Hb' eq_refl).
  - right.
    assert (∀ r n, r ∈ open_list st ++ closed_list st → heap st !! r = Some n →
              node_city n ≠ c) as Hfresh.
    { intros r n Hr Hn Hc. apply elem_of_app in Hr as [Ho|Hcl].
      - assert (false = true); [|done]. apply Hb'. right. eauto.
      - assert (false = true); [|done]. apply Hb. exists r, n. auto. }
    split; [done|].
    assert (hp' = heap st) as ->; [|done].
    apply list_eq. intros r.
    destruct (heap st !! r) as [n|] eqn:Hn.
    + rewrite (Hpt r n Hn). destruct (decide (r ∈ open_list st)) as [Ho|]; [|done].
      rewrite relaxed_other; [done|]. intros Hc.
      apply (Hfresh r n); [apply elem_of_app; by left|done|done].
    + apply lookup_ge_None in Hn. rewrite <- Hlen in Hn.
      by apply lookup_ge_None in Hn.
Qed.

Lemma relaxed_g nb cur n : (node_g (relaxed nb cur n) <= node_g n)%Q.
Proof.
  unfold relaxed. destruct (decide _); [|apply Qle_refl].
  destruct (Qlt_le_dec _ _); [by apply Qlt_le_weak|apply Qle_refl].
Qed.

Lemma has_node_grows st st' c :
  store_grows (heap st) (heap st') → has_node st c → has_node st' c.
Proof.
  intros Hgrow (r & n & Hn & Hc).
  destruct (Hgrow r n Hn) as (n' & Hn' & Hc' & _).
  exists r, n'. split; [done|congruence].
Qed.

Lemma g_lowers_refl hp : g_lowers hp hp.
Proof. intros r n Hn. exists n. split; [done|apply Qle_refl]. Qed.

Lemma g_lowers_trans hp1 hp2 hp3 :
  g_lowers hp1 hp2 → g_lowers hp2 hp3 → g_lowers hp1 hp3.
Proof.
  intros H12 H23 r n Hn.
  destruct (H12 r n Hn) as (n2 & Hn2 & ?).
  destruct (H23 r n2 Hn2) as (n3 & Hn3 & ?).
  exists n3. split; [done|]. by eapply Qle_trans.
Qed.

(** What a visit adds to [keeps]: the neighbour has a node afterwards, no
    g is raised, and the h and f of the nodes stay as they should. *)
Lemma visit_more start goal st cur cn c st' :
  search_inv start st → cur ∈ closed_list st →
  heap st !! cur = Some cn → edge (node_city cn) c →
  visit (Node_init None goal) cur c st = Done st' →
  has_node st' c ∧ g_lowers (heap st) (heap st') ∧
  (costs_ok goal st → costs_ok goal st').
Proof.
  intros Hinv Hcur Hcn Hedge Hvisit.
  destruct (visit_cases (Node_init None goal) st cur cn c
              (inv_open_store _ _ Hinv) (inv_closed_store _ _ Hinv) Hcn)
    as [[(r & n & Hr & Hn & Hc) Hv]
       |[[(r & n & Hr & Hn & Hc) (hp' & Hv & Hlen & Hpt)]|[Hfresh Hv]]];
    rewrite Hv in Hvisit; injection Hvisit as <-.
  - split_and!; [by exists r, n|apply g_lowers_refl|done].
  - simpl. split_and!.
    + exists r. eexists. split; [by apply Hpt|].
      rewrite decide_True by done. by rewrite relaxed_city.
    + intros r' n' Hn'. eexists. split; [by apply Hpt|].
      destruct (decide _); [apply relaxed_g|apply Qle_refl].
    + intros Hcosts r' n' Hn' Hr0. simpl in Hn'.
      assert (r' < length (heap st)) as Hlt.
      { rewrite <- Hlen. by eapply lookup_lt_Some. }
      apply lookup_lt_is_Some_2 in Hlt as [n0 Hn0].
      rewrite (Hpt r' n0 Hn0) in Hn'. injection Hn' as <-.
      destruct (Hcosts r' n0 Hn0 Hr0)
        as (Hh & q & qn & Hq & Hqn & He & Hf & Hg & Hgh).
      assert (hp' !! q = Some qn) as Hqn'.
      { rewrite (Hpt q qn Hqn), decide_False; [done|].
        intros Ho. eapply inv_disjoint; eauto. }
      destruct (decide (r' ∈ open_list st)); [|split; [done|by exists q, qn]].
      pose proof (relaxed_g (make_neighbour (Node_init None goal) cn cur c) cur n0)
        as Hlow.
      destruct (relaxed_h_f (make_neighbour (Node_init None goal) cn cur c) cur n0)
        as [Hh' Hf'].
      rewrite relaxed_city, Hh', Hf'. split; [done|].
      exists q, qn. split_and!; auto.
      * by eapply Qle_trans.
      * eapply Qle_trans; [|exact Hgh].
        apply Qplus_le_compat; [done|apply Qle_refl].
  - simpl. split_and!.
    + exists (length (heap st)). eexists.
      split; [by apply list_lookup_middle|done].
    + intros r' n' Hn'. exists n'. split; [|apply Qle_refl].
      rewrite lookup_app_l; [done|]. by eapply lookup_lt_Some.
    + assert (∀ r n, heap st !! r = Some n →
                (heap st ++ [make_neighbour (Node_init None goal) cn cur c]) !! r
                = Some n) as Hold.
      { intros r n Hn. rewrite lookup_app_l; [done|]. by eapply lookup_lt_Some. }
      intros Hcosts r' n' Hn' Hr0. simpl in Hn'.
      destruct (decide (r' < length (heap st))) as [Hlt|Hge].
      * rewrite lookup_app_l in Hn' by done.
        destruct (Hcosts r' n' Hn' Hr0)
          as (Hh & q & qn & Hq & Hqn & He & Hf & Hg & Hgh).
        split; [done|]. exists q, qn. split_and!; auto.
      * assert (r' = length (heap st)) as ->.
        { apply lookup_lt_Some in Hn'. rewrite length_app in Hn'.
          simpl in Hn'. lia. }
        rewrite list_lookup_middle in Hn' by done. injection Hn' as <-.
        split; [done|]. exists cur, cn. simpl.
        split_and!; auto; apply Qle_refl.
Qed.
Lemma expand_more start goal cur cn ns :
  ∀ st st',
  search_inv start st → 0 ∈ closed_list st → cur ∈ closed_list st →
  heap st !! cur = Some cn → Forall (edge (node_city cn)) ns →
  expand (Node_init None goal) cur ns st = Done st' →
  (∀ c, c ∈ ns → has_node st' c) ∧ g_lowers (heap st) (heap st') ∧
  (costs_ok goal st → costs_ok goal st').
Proof.
  induction ns as [|c rest IH]; intros st st' Hinv H0 Hcur Hcn Hns Hexp.
  - simpl in Hexp. injection Hexp as <-.
    split_and!; [|apply g_lowers_refl|done].
    intros c Hc. by apply elem_of_nil in Hc.
  - apply Forall_cons in Hns as [Hc Hrest]. simpl in Hexp.
    destruct (visit_spec start (Node_init None goal) st cur cn c Hinv H0 Hcur Hcn Hc)
      as (st1 & Hvisit & Hinv1 & Hcl1 & Hgrow1 & Hsame1).
    rewrite Hvisit in Hexp. cbn [obind] in Hexp.
    destruct (visit_more start goal st cur cn c st1 Hinv Hcur Hcn Hc Hvisit)
      as (Hnode1 & Hlow1 & Hcosts1).
    assert (heap st1 !! cur = Some cn) as Hcn1 by by rewrite Hsame1.
    rewrite <- Hcl1 in H0, Hcur.
    assert (store_grows (heap st1) (heap st')) as Hgrow'.
    { destruct (expand_spec start (Node_init None goal) cur cn rest st1
                  Hinv1 H0 Hcur Hcn1 Hrest) as (st2 & Hexp2 & _ & _ & Hgrow2 & _).
      rewrite Hexp2 in Hexp. by injection Hexp as <-. }
    destruct (IH st1 st' Hinv1 H0 Hcur Hcn1 Hrest Hexp) as (Hnodes & Hlow & Hcosts).
    split_and!; auto.
    + intros d Hd. apply elem_of_cons in Hd as [->|Hd]; [|auto].
      by eapply has_node_grows.
    + by eapply g_lowers_trans.
Qed.
(** *** What an iteration does *)

Lemma body_unfold gn st i r cn :
  select st = Done (r, selected st i r) → heap st !! r = Some cn →
  body gn st =
    if decide (node_city cn = node_city gn) then
      obind (walk (length (heap st)) (heap st) (Some r) [])
            (λ path, Done (Return (reverse path)))
    else
      obind (expand gn r (neighbours (city (node_city cn))) (selected st i r))
            (λ st2, Done (Next st2)).
Proof.
  intros Hsel Hcn. unfold body. rewrite Hsel. cbn [obind].
  change (heap (selected st i r)) with (heap st).
  by rewrite (read_Done _ _ _ Hcn).
Qed.

Lemma step_more start goal st st' :
  search_inv start st → open_list st ≠ [] →
  body (Node_init None goal) st = Done (Next st') →
  (explored goal st → explored goal st') ∧
  g_lowers (heap st) (heap st') ∧
  (costs_ok goal st → costs_ok goal st').
Proof.
  intros Hinv Hne Hbody.
  destruct (body_spec start (Node_init None goal) st Hinv Hne)
    as (i & r & cn & Hsel & Hi & Hcn & _ &
        [(_ & path & Hb & _)|(Hgoal & st2 & Hb & Hkeeps)]);
    rewrite Hb in Hbody; [discriminate|].
  injection Hbody as ->. simpl in Hgoal.
  rewrite (body_unfold _ _ _ _ _ Hsel Hcn), decide_False in Hb by done.
  destruct (expand _ _ _ _) as [st2| |] eqn:Hexp; simpl in Hb; try discriminate.
  injection Hb as ->.
  pose proof (select_keeps_inv start st i r Hinv Hi) as Hinv1.
  fold (selected st i r) in Hinv1.
  assert (r ∈ closed_list (selected st i r)) as Hr1.
  { simpl. apply elem_of_app. right. by apply list_elem_of_singleton. }
  assert (0 ∈ closed_list (selected st i r)) as H01.
  { destruct (inv_first _ _ _ _ Hinv1) as [?|[_ Hnil]]; [done|].
    simpl in Hnil. by apply app_eq_nil in Hnil as [_ ?]. }
  destruct (expand_more start goal r cn (neighbours (city (node_city cn)))
              (selected st i r) st' Hinv1 H01 Hr1 Hcn)
    as (Hnodes & Hlow & Hcosts); [by apply Forall_forall|done|].
  destruct Hkeeps as (Hinv' & Hcl' & Hgrow' & Hsame').
  split_and!; auto.
  2:{ intros Hcosts0. apply Hcosts. intros r0 n0 Hn0 Hr0.
      destruct (Hcosts0 r0 n0 Hn0 Hr0)
        as (Hh & q & qn & Hq & Hqn & He & Hf & Hg & Hgh).
      split; [done|]. exists q, qn. split_and!; auto.
      simpl. apply elem_of_app. by left. }
  intros Hexpl r0 n0 Hr0 Hn0. rewrite Hcl' in Hr0.
  rewrite (Hsame' r0 Hr0) in Hn0. simpl in Hn0, Hr0.
  apply elem_of_app in Hr0 as [Hr0|Hr0].
  - destruct (Hexpl r0 n0 Hr0 Hn0) as [Hg Hnb]. split; [done|].
    intros d Hd. eapply has_node_grows; [exact Hgrow'|]. by apply Hnb.
  - apply list_elem_of_singleton in Hr0 as ->. lookup_eq.
    split; [done|]. intros d Hd. by apply Hnodes.
Qed.

Lemma iterations_more start goal k st st' :
  search_inv start st → iterations (Node_init None goal) k st st' →
  (explored goal st → explored goal st') ∧
  g_lowers (heap st) (heap st') ∧
  (costs_ok goal st → costs_ok goal st').
Proof.
  intros Hinv Hit. induction Hit as [st|k st st1 st' Hne Hbody Hit IH].
  - split_and!; auto using g_lowers_refl.
  - destruct (step_more start goal st st1 Hinv Hne Hbody) as (He1 & Hl1 & Hc1).
    assert (search_inv start st1) as Hinv1.
    { apply (iterations_keep start (Node_init None goal) 1 st st1 Hinv).
      eapply iterations_S; eauto. constructor. }
    destruct (IH Hinv1) as (He & Hl & Hc).
    split_and!; auto. by eapply g_lowers_trans.
Qed.

(** *** The cities of a walk *)

Lemma walk_simple start st :
  search_inv start st →
  ∀ j r, closed_list st !! j = Some r →
  ∀ fuel acc, j < fuel →
  ∃ p, walk fuel (heap st) (Some r) acc = Done (acc ++ p) ∧ NoDup p ∧
    ∀ c, c ∈ p → ∃ i r' n', i ≤ j ∧ closed_list st !! i = Some r' ∧
                  heap st !! r' = Some n' ∧ node_city n' = c.
Proof.
  intros Hinv j. induction j as [j IH] using lt_wf_ind.
  intros r Hj fuel acc Hfuel.
  destruct fuel as [|fuel]; [lia|].
  assert (r < length (heap st)) as Hlt.
  { apply (inv_refs start st r Hinv). right. by eapply list_elem_of_lookup_2. }
  apply lookup_lt_is_Some_2 in Hlt as [n Hn].
  destruct (decide (r = 0)) as [->|Hr0].
  - pose proof (inv_start _ _ _ _ Hinv) as H0. clear Hn.
    exists [start]. split_and!.
    + simpl. rewrite (read_Done _ _ _ H0). cbn [obind]. apply walk_None.
    + apply NoDup_singleton.
    + intros c Hc. apply list_elem_of_singleton in Hc as ->.
      exists j, 0, (Node_init None start). auto.
  - destruct (inv_parent _ _ _ _ Hinv r n Hn Hr0)
      as (p & pn & i & Hp & Hpn & _ & _ & Hi & Hord).
    specialize (Hord j Hj).
    destruct (IH i Hord p Hi fuel (acc ++ [node_city n]))
      as (path & Hwalk & Hnd & Hfrom); [lia|].
    exists (node_city n :: path). split_and!.
    + simpl. rewrite (read_Done _ _ _ Hn). cbn [obind].
      rewrite Hp, Hwalk. by rewrite <- app_assoc.
    + apply NoDup_cons. split; [|done]. intros Hin.
      destruct (Hfrom _ Hin) as (i' & r' & n' & Hi' & Hr' & Hn' & Hc').
      assert (r' = r) as -> by by eapply inv_city_inj.
      pose proof (NoDup_lookup _ _ _ _ (inv_closed_NoDup _ _ Hinv) Hr' Hj). lia.
    + intros c Hc. apply elem_of_cons in Hc as [->|Hc].
      * exists j, r, n. auto.
      * destruct (Hfrom _ Hc) as (i' & r' & n' & Hi' & Hr' & Hn' & Hc').
        exists i', r', n'. split_and!; auto. lia.
Qed.

(** A returned path is the reverse of a walk in the state in which the
    goal's node was selected. *)
Lemma returned_path_simple start goal fuel path :
  a_star fuel start goal = Done (Some path) →
  NoDup path ∧ ∀ c, c ∈ path → reachable start c.
Proof.
  intros Hres. apply loop_Some in Hres as (k & st & Hit & Hne & Hbody).
  destruct (iterations_keep start _ _ _ _ (init_inv start) Hit) as (Hinv & _).
  destruct (body_spec start (Node_init None goal) st Hinv Hne)
    as (i & r & cn & Hsel & Hi & Hcn & _ &
        [(Hgoal & p & Hb & _)|(_ & st' & Hb & _)]);
    rewrite Hb in Hbody; [|discriminate].
  injection Hbody as ->.
  rewrite (body_unfold _ _ _ _ _ Hsel Hcn), decide_True in Hb by done.
  pose proof (select_keeps_inv start st i r Hinv Hi) as Hinv1.
  fold (selected st i r) in Hinv1.
  destruct (walk_simple start _ Hinv1 (length (closed_list st)) r)
    with (fuel := length (heap st)) (acc := @nil CityRef)
    as (p & Hwalk & Hnd & Hfrom).
  { simpl. by rewrite list_lookup_middle. }
  { pose proof (inv_lengths _ _ Hinv). destruct (open_list st); simpl in *; [done|lia]. }
  simpl in Hwalk. rewrite Hwalk in Hb. simpl in Hb. injection Hb as <-.
  split.
  - by rewrite reverse_Permutation.
  - intros c Hc. rewrite elem_of_reverse in Hc.
    destruct (Hfrom c Hc) as (_ & r' & n' & _ & _ & Hn' & <-).
    by eapply (inv_reach _ _ _ _ Hinv1).
Qed.

(** The main loop does not fault. *)
Lemma loop_no_fault start gn fuel :
  ∀ st, search_inv start st → a_star_loop fuel gn st ≠ Fault.
Proof.
  induction fuel as [|fuel IH]; intros st Hinv; [done|].
  simpl. destruct (open_list st) as [|r0 rest] eqn:Hol; [done|].
  destruct (body_spec start gn st Hinv)
    as (i & r & cn & _ & _ & _ & _ & [(_ & path & -> & _)|(_ & st2 & -> & Hk)]).
  { by rewrite Hol. }
  - done.
  - simpl. apply IH. by destruct Hk.
Qed.

Lemma init_explored start goal : explored goal (init_state start).
Proof. intros r n Hr. by apply elem_of_nil in Hr. Qed.

Lemma init_costs start goal : costs_ok goal (init_state start).
Proof.
  intros [|r] n Hn Hr0; [done|]. simpl in Hn. by rewrite lookup_nil in Hn.
Qed.

(** When the open list is empty every city within reach has a node. *)
Lemma explored_all start goal st :
  search_inv start st → explored goal st → open_list st = [] →
  ∀ c, reachable start c → has_node st c.
Proof.
  intros Hinv Hexpl Hnil. apply rtc_ind_r.
  - exists 0, (Node_init None start). split; [|done]. apply (inv_start _ _ _ _ Hinv).
  - intros c d _ Hcd (r & n & Hn & <-).
    assert (r ∈ closed_list st) as Hr.
    { assert (r ∈ open_list st ∨ r ∈ closed_list st) as [Ho|?]; [| |done].
      - apply (inv_refs start st r Hinv). by eapply lookup_lt_Some.
      - rewrite Hnil in Ho. by apply elem_of_nil in Ho. }
    destruct (Hexpl r n Hr Hn) as [_ Hnb]. by apply Hnb.
Qed.
(** ** The search with the OverflowError *)

(** Each step either faults on a square out of range or does what the
    step in exact arithmetic does; in range it does the latter. *)

Lemma square_cases x : square x = Done (x ^ 2)%Q ∨ square x = Fault.
Proof. unfold square. destruct (Qlt_le_dec _ _); auto. Qed.

Lemma square_in_range x : (x ^ 2 < overflow_bound)%Q → square x = Done (x ^ 2)%Q.
Proof.
  intros Hlt. unfold square. destruct (Qlt_le_dec _ _) as [|Hge]; [done|].
  exfalso. eapply Qlt_irrefl, Qlt_le_trans; eauto.
Qed.

Lemma distance_checked_cases a b :
  distance_to_checked a b = Done (distance_to a b) ∨
  distance_to_checked a b = Fault.
Proof.
  unfold distance_to_checked, distance_to.
  destruct (square_cases (latitude (city a) - latitude (city b))) as [->| ->];
    [|by right].
  destruct (square_cases (longitude (city a) - longitude (city b))) as [->| ->];
    [by left|by right].
Qed.

Lemma distance_checked_in_range a b :
  in_range a b → distance_to_checked a b = Done (distance_to a b).
Proof.
  intros [Hlat Hlon]. unfold distance_to_checked, distance_to.
  by rewrite (square_in_range _ Hlat), (square_in_range _ Hlon).
Qed.

Lemma make_neighbour_checked_cases gn cn cur c :
  make_neighbour_checked gn cn cur c = Done (make_neighbour gn cn cur c) ∨
  make_neighbour_checked gn cn cur c = Fault.
Proof.
  unfold make_neighbour_checked, make_neighbour, calc_heuristic_checked,
    calc_heuristic.
  destruct (distance_checked_cases (node_city cn) c) as [->| ->]; [|by right].
  cbn [obind]. simpl.
  destruct (distance_checked_cases c (node_city gn)) as [->| ->];
    [by left|by right].
Qed.

Lemma make_neighbour_checked_in_range gn cn cur c :
  in_range (node_city cn) c → in_range c (node_city gn) →
  make_neighbour_checked gn cn cur c = Done (make_neighbour gn cn cur c).
Proof.
  intros H1 H2.
  unfold make_neighbour_checked, make_neighbour, calc_heuristic_checked,
    calc_heuristic.
  rewrite (distance_checked_in_range _ _ H1). cbn [obind]. simpl.
  by rewrite (distance_checked_in_range _ _ H2).
Qed.

Lemma visit_checked_cases gn cur c st :
  visit_checked gn cur c st = visit gn cur c st ∨
  visit_checked gn cur c st = Fault.
Proof.
  unfold visit_checked, visit.
  destruct (in_closed _ _ _) as [[|]| |]; cbn [obind]; auto.
  destruct (read _ _) as [cn| |]; cbn [obind]; auto.
  destruct (make_neighbour_checked_cases gn cn cur c) as [->| ->]; auto.
Qed.

Lemma visit_checked_in_range gn cur c st cn :
  heap st !! cur = Some cn →
  in_range (node_city cn) c → in_range c (node_city gn) →
  visit_checked gn cur c st = visit gn cur c st.
Proof.
  intros Hcn H1 H2. unfold visit_checked, visit.
  destruct (in_closed _ _ _) as [[|]| |]; cbn [obind]; auto.
  rewrite (read_Done _ _ _ Hcn). cbn [obind].
  by rewrite (make_neighbour_checked_in_range _ _ _ _ H1 H2).
Qed.

Lemma expand_checked_cases gn cur ns :
  ∀ st, expand_checked gn cur ns st = expand gn cur ns st ∨
        expand_checked gn cur ns st = Fault.
Proof.
  induction ns as [|c rest IH]; intros st; simpl; [by left|].
  destruct (visit_checked_cases gn cur c st) as [->| ->]; [|by right].
  destruct (visit gn cur c st) as [st'| |]; cbn [obind]; auto.
Qed.

Lemma expand_checked_in_range start goal cur cn ns :
  ∀ st,
  search_inv start st → 0 ∈ closed_list st → cur ∈ closed_list st →
  heap st !! cur = Some cn →
  Forall (λ c, edge (node_city cn) c ∧ in_range (node_city cn) c ∧
               in_range c goal) ns →
  expand_checked (Node_init None goal) cur ns st
  = expand (Node_init None goal) cur ns st.
Proof.
  induction ns as [|c rest IH]; intros st Hinv H0 Hcur Hcn Hns; [done|].
  apply Forall_cons in Hns as [(Hc & Hr1 & Hr2) Hrest]. simpl.
  rewrite (visit_checked_in_range (Node_init None goal) cur c st cn Hcn Hr1 Hr2).
  destruct (visit_spec start (Node_init None goal) st cur cn c Hinv H0 Hcur Hcn Hc)
    as (st1 & -> & Hinv1 & Hcl1 & _ & Hsame1).
  cbn [obind]. apply IH; auto; try congruence.
  by rewrite Hsame1.
Qed.

Lemma body_checked_cases gn st :
  body_checked gn st = body gn st ∨ body_checked gn st = Fault.
Proof.
  unfold body_checked, body.
  destruct (select st) as [[r st1]| |]; cbn [obind]; auto.
  destruct (read _ _) as [cn| |]; cbn [obind]; auto.
  destruct (decide _); auto.
  destruct (expand_checked_cases gn r (neighbours (city (node_city cn))) st1)
    as [->| ->]; auto.
Qed.

Lemma body_checked_in_range start goal st :
  search_inv start st → open_list st ≠ [] → range_ok start goal →
  body_checked (Node_init None goal) st = body (Node_init None goal) st.
Proof.
  intros Hinv Hne Hrange.
  destruct (select_spec st Hne (inv_open_store _ _ Hinv)) as (i & r & Hsel & Hi & _).
  pose proof (select_keeps_inv start st i r Hinv Hi) as Hinv1.
  assert (r ∈ open_list st) as Hr by by eapply list_elem_of_lookup_2.
  destruct (in_store_lookup _ _ r (inv_open_store _ _ Hinv) Hr) as [cn Hcn].
  unfold body_checked, body. rewrite Hsel. cbn [obind]. simpl.
  rewrite (read_Done _ _ _ Hcn). cbn [obind].
  destruct (decide _); [done|].
  rewrite (expand_checked_in_range start goal r cn); auto.
  - destruct (inv_first _ _ _ _ Hinv1) as [?|[_ Hnil]]; [done|].
    simpl in Hnil. by apply app_eq_nil in Hnil as [_ ?].
  - simpl. apply elem_of_app. right. by apply list_elem_of_singleton.
  - pose proof (inv_reach _ _ _ _ Hinv r cn Hcn) as Hreach.
    apply Forall_forall. intros c Hc.
    destruct (Hrange _ Hreach) as [_ Hedges].
    split_and!; [done|by apply Hedges|].
    destruct (Hrange c) as [? _]; [by eapply rtc_r|done].
Qed.

Lemma loop_checked_cases gn fuel :
  ∀ st, a_star_loop_checked fuel gn st = a_star_loop fuel gn st ∨
        a_star_loop_checked fuel gn st = Fault.
Proof.
  induction fuel as [|fuel IH]; intros st; simpl; [by left|].
  destruct (open_list st); [by left|].
  destruct (body_checked_cases gn st) as [->| ->]; [|by right].
  destruct (body gn st) as [[st'|path]| |]; cbn [obind]; auto.
Qed.

Lemma loop_checked_in_range start goal fuel :
  range_ok start goal →
  ∀ st, search_inv start st →
  a_star_loop_checked fuel (Node_init None goal) st
  = a_star_loop fuel (Node_init None goal) st.
Proof.
  intros Hrange. induction fuel as [|fuel IH]; intros st Hinv; [done|].
  simpl. destruct (open_list st) as [|r0 rest] eqn:Hol; [done|].
  rewrite (body_checked_in_range start goal st Hinv) by (by rewrite Hol || done).
  destruct (body_spec start (Node_init None goal) st Hinv)
    as (i & r & cn & _ & _ & _ & _ & [(_ & path & -> & _)|(_ & st2 & -> & Hk)]).
  { by rewrite Hol. }
  - done.
  - cbn [obind]. apply IH. by destruct Hk.
Qed.

Lemma a_star_checked_in_range start goal fuel :
  range_ok start goal → a_star_checked fuel start goal = a_star fuel start goal.
Proof. intros Hrange. by apply (loop_checked_in_range start), init_inv. Qed.

Lemma loop_None_checked fuel gn st :
  a_star_loop_checked fuel gn st = Done None ↔
  ∃ k st', k < fuel ∧ iterations_checked gn k st st' ∧ open_list st' = [].
Proof.
  split.
  - revert st. induction fuel as [|fuel IH]; intros st Hloop; [done|].
    simpl in Hloop. destruct (open_list st) as [|r0 rest] eqn:Hol.
    { exists 0, st. split_and!; auto; [lia|constructor]. }
    destruct (body_checked gn st) as [[st1|p]| |] eqn:Hbody; simpl in Hloop;
      try done.
    destruct (IH st1 Hloop) as (k & st' & Hk & Hit & Hnil).
    exists (S k), st'. split_and!; auto; [lia|].
    eapply iterations_checked_S; eauto. by rewrite Hol.
  - intros (k & st' & Hk & Hit & Hnil). revert fuel Hk.
    induction Hit as [st|k st st1 st' Hne Hbody Hit IH]; intros fuel Hk.
    + destruct fuel; [lia|]. simpl. by rewrite Hnil.
    + destruct fuel as [|fuel]; [lia|]. simpl.
      destruct (open_list st); [done|]. rewrite Hbody. simpl.
      apply IH; [done|lia].
Qed.

(** [a_star_checked] faults or returns what [a_star] returns. *)
Lemma a_star_checked_cases start goal fuel :
  a_star_checked fuel start goal = a_star fuel start goal ∨
  a_star_checked fuel start goal = Fault.
Proof. apply loop_checked_cases. Qed.

(** The squares of a search are in range when those of the cities of [V],
    which holds the cities within reach, are. *)
Lemma range_ok_in_closure start goal (V : list CityRef) :
  (∀ c, reachable start c → c ∈ V) →
  Forall (λ a, in_range a goal ∧ Forall (in_range a) (neighbours (city a))) V →
  range_ok start goal.
Proof.
  intros HV Hall a Ha. rewrite Forall_forall in Hall.
  destruct (Hall a (HV a Ha)) as [Hgoal Hnb]. split; [done|].
  intros b Hb. rewrite Forall_forall in Hnb. by apply Hnb.
Qed.


(** ** Further properties of [a_star] *)

(** On a finite graph a goal within reach is found. *)
Lemma reachable_gives_path (V : list CityRef) start goal fuel :
  (∀ c, reachable start c → c ∈ V) → length V < fuel →
  reachable start goal →
  ∃ path, a_star fuel start goal = Done (Some path).
Proof.
  intros HV Hfuel Hreach.
  destruct (loop_total start (Node_init None goal) V HV fuel (init_state start)
              (init_inv start)) as [[path|] Hres]; [simpl; lia|by exists path|].
  exfalso. apply loop_None in Hres as (k & st & _ & Hit & Hnil).
  destruct (iterations_keep start _ _ _ _ (init_inv start) Hit) as (Hinv & _).
  destruct (iterations_more start goal _ _ _ (init_inv start) Hit) as (Hexpl & _).
  specialize (Hexpl (init_explored start goal)).
  destruct (explored_all start goal st Hinv Hexpl Hnil goal Hreach)
    as (r & n & Hn & Hc).
  assert (r ∈ closed_list st) as Hr.
  { assert (r ∈ open_list st ∨ r ∈ closed_list st) as [Ho|?]; [| |done].
    - apply (inv_refs start st r Hinv). by eapply lookup_lt_Some.
    - rewrite Hnil in Ho. by apply elem_of_nil in Ho. }
  by destruct (Hexpl r n Hr Hn).
Qed.

(** X2. A returned path goes through no city twice, and all its cities
    are within reach of the start: it is no longer than the list [V] of
    these cities. *)
Theorem a_star_path_simple (V : list CityRef) start goal fuel path :
  (∀ c, reachable start c → c ∈ V) →
  a_star fuel start goal = Done (Some path) →
  NoDup path ∧ (∀ c, c ∈ path → c ∈ V) ∧ length path ≤ length V.
Proof.
  intros HV Hres.
  destruct (returned_path_simple start goal fuel path Hres) as [Hnd Hreach].
  split_and!; auto.
  apply submseteq_length, NoDup_submseteq; auto.
Qed.


(** X4. The g of a node is never raised: from a loop state to any later
    one, every node of the store is still there with a g that is not
    higher. *)
Theorem g_never_rises start goal k st k' st' :
  loop_state start goal k st →
  iterations (Node_init None goal) k' st st' →
  g_lowers (heap st) (heap st').
Proof.
  intros Hloop Hit.
  destruct (iterations_keep start _ _ _ _ (init_inv start) Hloop) as (Hinv & _).
  by destruct (iterations_more start goal _ _ _ Hinv Hit) as (_ & ? & _).
Qed.

(** X6. From a start without neighbours [a_star] returns None for any
    other goal, after one iteration. *)
Theorem a_star_isolated_start start goal fuel :
  neighbours (city start) = [] → start ≠ goal →
  a_star (S (S fuel)) start goal = Done None.
Proof.
  intros Hnone Hne. unfold a_star, init_state. simpl.
  unfold body, select. simpl.
  rewrite decide_False by done. by rewrite Hnone.
Qed.

(** X7. For a square root that gives equal results on equal rationals,
    the distance between two cities is the same in both directions, and the
    distance from a city to itself is the square root of 0. *)
Theorem distance_to_symmetric a b :
  (∀ x y, (x == y)%Q → (sqrt x == sqrt y)%Q) →
  (distance_to a b == distance_to b a)%Q ∧ (distance_to a a == sqrt 0)%Q.
Proof.
  intros Hsqrt. unfold distance_to. split; apply Hsqrt; ring.
Qed.
End Proofs.

(** ** The concrete graph *)

Module DemoFacts.
Import Demo.

Abbreviation dist := (distance_to sqrt_exact city).
Abbreviation goal_node := (Node_init None G_).

Lemma st2_loop_state : loop_state sqrt_exact city S_ G_ 2 st2.
Proof.
  unfold loop_state.
  eapply iterations_S; [done|reflexivity|].
  eapply iterations_S; [done|reflexivity|].
  apply iterations_O.
Qed.

(** On the pairs that the search from S to G measures, [sqrt_exact] is
    the square root: the distance is the Euclidean one. *)
Lemma measured_exact :
  Forall (λ ab,
    let d := dist ab.1 ab.2 in
    (0 <= d)%Q ∧
    (d * d == (latitude (city ab.1) - latitude (city ab.2)) ^ 2
              + (longitude (city ab.1) - longitude (city ab.2)) ^ 2)%Q)
    measured.
Proof. repeat constructor; by vm_compute. Qed.

(** C1 fails on this graph.  [a_star S G] returns S, C, G of cost 20,
    while S, B, N, G is a path of cost 12.  N is first reached through A
    with g = 14 and f = 24; when B lowers its g to 2 its f stays 24, so G,
    reached through C with f = 20, is selected before N. *)
Theorem a_star_not_optimal :
  a_star sqrt_exact city 6 S_ G_ = Done (Some [S_; C_; G_]) ∧
  path_cost sqrt_exact city [S_; C_; G_] = 20%Q ∧
  head short_route = Some S_ ∧ last short_route = Some G_ ∧
  linked city short_route ∧
  path_cost sqrt_exact city short_route = 12%Q.
Proof.
  split_and!; try reflexivity.
  intros i u v Hu Hv.
  destruct i as [|[|[|i]]]; simpl in Hu, Hv; simplify_eq;
    unfold edge; simpl; set_solver.
Qed.

(** C5 fails for the search from S to G: the h of the start node is 0,
    the distance from S to G is 12. *)
Lemma start_node_h_counterexample :
  ¬ ∃ n, heap (init_state S_) !! 0 = Some n ∧
         node_g n = 0%Q ∧ (node_h n == dist S_ G_)%Q ∧ node_f n = node_h n.
Proof.
  intros (n & Hn & _ & Hh & _). simpl in Hn. injection Hn as <-.
  vm_compute in Hh. discriminate.
Qed.

Lemma around_S_covers c : reachable city S_ c → c ∈ around_S.
Proof.
  apply reachable_in_closure; [set_solver|].
  repeat constructor; set_solver.
Qed.

(** B is selected and its neighbours S and N are to visit; the visit of S
    leaves the state as it is. *)
Lemma st2_expanding : expanding sqrt_exact city S_ G_ 2 [S_; N_] st2_selected.
Proof.
  apply (expanding_first sqrt_exact city S_ G_ 2 st2 2 st2_selected
           (mkNode B_ (Some 0) 1 11 12) st2_loop_state); done.
Qed.

Lemma st2_expanding_N : expanding sqrt_exact city S_ G_ 2 [N_] st2_selected.
Proof.
  apply (expanding_next sqrt_exact city S_ G_ 2 S_ [N_] st2_selected
           st2_selected st2_expanding).
  reflexivity.
Qed.

(** *** The properties at work on the graph *)

Lemma a_star_path_valid_witness :
  head [S_; C_; G_] = Some S_ ∧ last [S_; C_; G_] = Some G_ ∧
  linked city [S_; C_; G_].
Proof.
  apply (a_star_path_valid sqrt_exact city 6 S_ G_). reflexivity.
Defined.

Lemma S_not_to_E : ¬ reachable city S_ E_.
Proof.
  intros Hr. apply around_S_covers in Hr. unfold around_S in Hr.
  repeat (apply elem_of_cons in Hr as [Hr|Hr]; [discriminate|]).
  by apply elem_of_nil in Hr.
Qed.

Lemma range_ok_S (goal : CityRef) :
  Forall (λ a, in_range city a goal ∧
               Forall (in_range city a) (neighbours (city a))) around_S →
  range_ok city S_ goal.
Proof. apply range_ok_in_closure, around_S_covers. Qed.

Lemma range_ok_S_E : range_ok city S_ E_.
Proof. apply range_ok_S. repeat constructor; by vm_compute. Qed.

Lemma range_ok_S_G : range_ok city S_ G_.
Proof. apply range_ok_S. repeat constructor; by vm_compute. Qed.



Lemma visit_open_neighbour_witness :
  ∃ st', visit sqrt_exact city goal_node 2 N_ st2_selected = Done st' ∧
    open_list st' = [3; 4] ∧ closed_list st' = [0; 1; 2] ∧
    length (heap st') = 5 ∧
    heap st' !! 4 = Some (mkNode N_ (Some 2) 2 10 24) ∧
    ∀ r' n', heap st2_selected !! r' = Some n' → r' ≠ 4 →
      heap st' !! r' = Some n'.
Proof.
  apply (visit_open_neighbour sqrt_exact city S_ G_ 2 N_ [] st2_selected
           (mkNode B_ (Some 0) 1 11 12) 4 (mkNode N_ (Some 1) 14 10 24)
           st2_expanding_N eq_refl).
  - simpl. set_solver.
  - reflexivity.
  - reflexivity.
Defined.

Lemma closed_is_permanent_witness :
  visit sqrt_exact city goal_node 2 S_ st2_selected = Done st2_selected ∧
  closed_apart st2.
Proof.
  split.
  - apply (proj1 (closed_is_permanent sqrt_exact city S_ G_)
             2 S_ [N_] st2_selected 0 (mkNode S_ None 0 0 0) st2_expanding).
    + simpl. set_solver.
    + reflexivity.
    + reflexivity.
  - apply (proj1 (proj2 (closed_is_permanent sqrt_exact city S_ G_)) 2 st2
             st2_loop_state).
Defined.

Lemma select_first_min_f_witness :
  ∃ st_j i, loop_state sqrt_exact city S_ G_ 1 st_j ∧
    select st_j = Done (1, selected st_j i 1) ∧
    open_list st_j !! i = Some 1 ∧
    first_min_f (heap st_j) (open_list st_j) i.
Proof.
  apply (proj2 (select_first_min_f sqrt_exact city S_ G_) 2 st2 1 1 st2_loop_state).
  reflexivity.
Defined.


Lemma parent_cost_chain_witness :
  hangs_on_closed sqrt_exact city S_ st2 ∧
  ∃ k st i r gn,
    loop_state sqrt_exact city S_ G_ k st ∧
    select st = Done (r, selected st i r) ∧
    heap st !! r = Some gn ∧ node_city gn = G_ ∧
    path_cost sqrt_exact city [S_; C_; G_] = node_g gn.
Proof.
  split.
  - apply (proj1 (parent_cost_chain sqrt_exact city S_ G_) 2 st2 st2_loop_state).
  - apply (proj2 (proj2 (parent_cost_chain sqrt_exact city S_ G_)) 6). reflexivity.
Defined.

End DemoFacts.

(** ** Building the graph and [main] *)

Module GraphFacts.
Import Demo DemoFacts Main.

Lemma sqrt_exact_equal x y : (x == y)%Q → (sqrt_exact x == sqrt_exact y)%Q.
Proof. intros Hxy. unfold sqrt_exact. by rewrite (Qred_complete x y Hxy). Qed.

Lemma build_graph_roads : build_graph = Done (roads, 1, 16).
Proof. reflexivity. Qed.

Lemma roads_closed c : reachable (city_of roads) 1 c → c ∈ all_cities.
Proof.
  apply reachable_in_closure.
  - apply (bool_decide_unpack _). by vm_compute.
  - apply (bool_decide_unpack _). by vm_compute.
Qed.

Lemma roads_to_belluno : reachable (city_of roads) 1 16.
Proof.
  apply (rtc_l _ _ 4); [unfold edge; apply (bool_decide_unpack _); by vm_compute|].
  apply (rtc_l _ _ 9); [unfold edge; apply (bool_decide_unpack _); by vm_compute|].
  apply (rtc_l _ _ 10); [unfold edge; apply (bool_decide_unpack _); by vm_compute|].
  apply rtc_once. unfold edge. apply (bool_decide_unpack _). by vm_compute.
Qed.
(** X8. Two calls of add_neighbours on a city of the store add up to one
    call with the two lists joined.  The city then has its former
    neighbours followed by the new ones in their order; its name and
    position, the other cities and the size of the store are unchanged. *)
Theorem add_neighbours_twice store self cities1 cities2 :
  self < length store →
  ∃ store2,
    obind (add_neighbours store self cities1)
          (λ store1, add_neighbours store1 self cities2) = Done store2 ∧
    add_neighbours store self (cities1 ++ cities2) = Done store2 ∧
    neighbours (city_of store2 self) =
      neighbours (city_of store self) ++ cities1 ++ cities2 ∧
    name (city_of store2 self) = name (city_of store self) ∧
    latitude (city_of store2 self) = latitude (city_of store self) ∧
    longitude (city_of store2 self) = longitude (city_of store self) ∧
    length store2 = length store ∧
    ∀ c, c ≠ self → city_of store2 c = city_of store c.
Proof.
  intros Hself. pose proof Hself as Hlt.
  apply lookup_lt_is_Some_2 in Hself as [c Hc].
  unfold add_neighbours, index. rewrite Hc. cbn [obind].
  rewrite list_lookup_insert_eq by done. cbn [obind].
  rewrite list_insert_insert_eq. simpl. rewrite <- app_assoc.
  eexists. split_and!; try done.
  - unfold city_of. rewrite list_lookup_insert_eq, Hc by done. done.
  - unfold city_of. rewrite list_lookup_insert_eq, Hc by done. done.
  - unfold city_of. rewrite list_lookup_insert_eq, Hc by done. done.
  - unfold city_of. rewrite list_lookup_insert_eq, Hc by done. done.
  - by rewrite length_insert.
  - intros c' Hne. unfold city_of. by rewrite list_lookup_insert_ne.
Qed.

(** X9. Whatever the square root function, [main] does not print that
    no road was found: it prints the names of a route, joined by arrows,
    that begins with Torino and ends with Belluno, and in which each city is
    a neighbour of the one before it. *)
Theorem main_prints_route sqrt fuel :
  18 < fuel →
  ∃ path,
    main sqrt fuel =
      Done (String.concat " -> " ((λ c, name (city_of roads c)) <$> path)) ∧
    (name ∘ city_of roads) <$> head path = Some "Torino"%string ∧
    (name ∘ city_of roads) <$> last path = Some "Belluno"%string ∧
    linked (city_of roads) path.
Proof.
  intros Hfuel.
  destruct (reachable_gives_path sqrt (city_of roads) all_cities 1 16 fuel
              roads_closed Hfuel roads_to_belluno) as [path Hres].
  destruct (returned_path_route sqrt _ fuel 1 16 path Hres) as (_ & Hroute).
  exists path. unfold main. rewrite build_graph_roads. cbn [obind].
  rewrite Hres. cbn [obind]. split_and!.
  - done.
  - by rewrite (route_head _ _ _ _ Hroute).
  - by rewrite (route_last _ _ _ _ Hroute).
  - by eapply route_linked.
Qed.

(** X10. A city made by [City(name, latitude, longitude)] has the
    given name and position and no neighbours, and the cities made before
    are as they were.  As long as no road is added to it, [a_star] from it
    to any other city returns None. *)
Theorem new_city_isolated sqrt store nm lat lon goal fuel :
  goal ≠ length store →
  let '(store', c) := new_city store nm lat lon in
  c = length store ∧
  city_of store' c = City_init nm lat lon ∧
  (∀ d, d < length store → city_of store' d = city_of store d) ∧
  a_star sqrt (city_of store') (S (S fuel)) c goal = Done None.
Proof.
  intros Hne. unfold new_city.
  assert (city_of (store ++ [City_init nm lat lon]) (length store)
          = City_init nm lat lon) as Hnew.
  { unfold city_of. by rewrite list_lookup_middle. }
  split_and!; auto.
  - intros d Hd. unfold city_of. by rewrite lookup_app_l.
  - unfold a_star, init_state. simpl. unfold body, select. simpl.
    rewrite decide_False by done. by rewrite Hnew.
Qed.

(** X11. In the graph that [main] builds every road goes both ways but
    one: Parma has Alessandria among its neighbours, and Alessandria does
    not have Parma. *)
Theorem roads_two_way_but_one :
  (∀ c d, edge (city_of roads) c d →
     edge (city_of roads) d c ∨ (c = 7 ∧ d = 4)) ∧
  name (city_of roads 7) = "Parma"%string ∧
  name (city_of roads 4) = "Alessandria"%string ∧
  edge (city_of roads) 7 4 ∧ ¬ edge (city_of roads) 4 7.
Proof.
  split_and!; try reflexivity.
  - intros c d Hcd.
    assert (Forall (λ c, Forall (λ d,
              d ∈ all_cities ∧
              (c ∈ neighbours (city_of roads d) ∨ (c = 7 ∧ d = 4)))
              (neighbours (city_of roads c))) all_cities) as Hall.
    { apply (bool_decide_unpack _). by vm_compute. }
    destruct (decide (c < 18)) as [Hlt|Hge].
    + rewrite Forall_forall in Hall. specialize (Hall c).
      rewrite Forall_forall in Hall. apply Hall; [|done].
      apply elem_of_seq. lia.
    + unfold edge, city_of in Hcd. rewrite lookup_ge_None_2 in Hcd by (simpl; lia).
      by apply elem_of_nil in Hcd.
  - unfold edge. apply (bool_decide_unpack _). by vm_compute.
  - unfold edge. apply (bool_decide_unpack _). by vm_compute.
Qed.

(** *** The further properties at work *)



Lemma a_star_path_simple_witness :
  NoDup [S_; C_; G_] ∧ (∀ c, c ∈ [S_; C_; G_] → c ∈ around_S) ∧
  length [S_; C_; G_] ≤ length around_S.
Proof.
  apply (a_star_path_simple sqrt_exact city around_S S_ G_ 6 [S_; C_; G_]
           around_S_covers).
  reflexivity.
Defined.


Lemma g_never_rises_witness : g_lowers (heap (init_state S_)) (heap st2).
Proof.
  apply (g_never_rises sqrt_exact city S_ G_ 0 (init_state S_) 2 st2).
  - apply iterations_O.
  - apply st2_loop_state.
Defined.

Lemma a_star_isolated_start_witness :
  a_star sqrt_exact city 2 E_ S_ = Done None.
Proof.
  apply (a_star_isolated_start sqrt_exact city E_ S_ 0); [reflexivity|done].
Defined.

Lemma distance_to_symmetric_witness :
  (distance_to sqrt_exact city S_ C_ == distance_to sqrt_exact city C_ S_)%Q ∧
  (distance_to sqrt_exact city S_ S_ == sqrt_exact 0)%Q.
Proof.
  apply (distance_to_symmetric sqrt_exact city S_ C_ sqrt_exact_equal).
Defined.

Lemma add_neighbours_twice_witness :
  ∃ store2,
    obind (add_neighbours roads 17 [16])
          (λ store1, add_neighbours store1 17 [15]) = Done store2 ∧
    add_neighbours roads 17 ([16] ++ [15]) = Done store2 ∧
    neighbours (city_of store2 17) =
      neighbours (city_of roads 17) ++ [16] ++ [15] ∧
    name (city_of store2 17) = name (city_of roads 17) ∧
    latitude (city_of store2 17) = latitude (city_of roads 17) ∧
    longitude (city_of store2 17) = longitude (city_of roads 17) ∧
    length store2 = length roads ∧
    ∀ c, c ≠ 17 → city_of store2 c = city_of roads c.
Proof.
  apply (add_neighbours_twice roads 17 [16] [15]). simpl. lia.
Defined.

Lemma new_city_isolated_witness :
  let '(store', c) := new_city roads "Asti" 44.9 8.2 in
  c = length roads ∧
  city_of store' c = City_init "Asti" 44.9 8.2 ∧
  (∀ d, d < length roads → city_of store' d = city_of roads d) ∧
  a_star sqrt_exact (city_of store') 2 c 1 = Done None.
Proof.
  apply (new_city_isolated sqrt_exact roads "Asti" 44.9 8.2 1 0). simpl. lia.
Defined.

Lemma main_prints_route_witness :
  ∃ path,
    main sqrt_exact 19 =
      Done (String.concat " -> " ((λ c, name (city_of roads c)) <$> path)) ∧
    (name ∘ city_of roads) <$> head path = Some "Torino"%string ∧
    (name ∘ city_of roads) <$> last path = Some "Belluno"%string ∧
    linked (city_of roads) path.
Proof.
  apply (main_prints_route sqrt_exact 19). lia.
Defined.

End GraphFacts.
